(** * Element Battle server: a shallow embedding of [src/server.js]

    The server keeps one in-memory object [lobbies] (room code -> room) and
    reacts to six socket events.  Every handler is embedded as a function
    from the world before the event to the world after it together with the
    messages it emits.

    - [Math.random()] is the only source of non-determinism inside the
      handlers; it is a stream of draws carried by the world and threaded
      through the code with a small state monad ([Rand]).
    - The reply of the arbitration endpoint is an input of the [playerChoice]
      event ([Oracle]).  A handler is modelled as running to completion.
      Without an API key this is what the server does: the awaited promise is
      already settled and the handler resumes before the next event.  With a
      key, other events may be served while the request is in flight; those
      interleavings are not modelled.
    - Socket.io room membership ([socket.join]) is not modelled: an emitted
      message records its destination only.

    [src/unnamed/part_000] is a variant of the same server (another endpoint
    for the arbitration call, and [startRound] draws the round type after the
    two default sets instead of before); the embedding follows
    [src/server.js]. *)

From Stdlib Require Import String Ascii List NArith Arith Bool Lia Permutation.
From Stdlib Require Import DecimalString.
Import ListNotations.
Open Scope string_scope.
Open Scope list_scope.
Open Scope nat_scope.

(** ** Randomness *)

(** [Math.random()] returns a double in [0,1).  A draw is kept as the
    numerator [u] of the fraction [u / RES]; rounding of the floating-point
    product is not modelled. *)
Definition RES : N := 2 ^ 53.

Definition Rand (A : Type) : Type := list N -> A * list N.

Definition ret {A} (a : A) : Rand A := fun s => (a, s).

Definition bind {A B} (c : Rand A) (k : A -> Rand B) : Rand B :=
  fun s => let (a, s') := c s in k a s'.

Notation "x <- c ;; k" := (bind c (fun x => k))
  (at level 61, c at next level, right associativity).

(** One call of [Math.random()]; an exhausted stream keeps answering 0. *)
Definition Math_random : Rand N :=
  fun s => match s with
           | [] => (0%N, [])
           | k :: s' => ((k mod RES)%N, s')
           end.

(** [Math.floor(Math.random() * n)] *)
Definition random_below (n : nat) : Rand nat :=
  u <- Math_random ;; ret (N.to_nat (u * N.of_nat n / RES)).

(** ** Element pool *)

Definition ELEMENTS : list string :=
  ["Fire"; "Water"; "Earth"; "Air"; "Lightning";
   "Ice"; "Metal"; "Nature"; "Shadow"; "Light"].

(** [copy.splice(idx, 1)] leaves [copy] without its element at [idx]. *)
Definition splice1 {A} (idx : nat) (copy : list A) : list A :=
  firstn idx copy ++ skipn (S idx) copy.

(** The loop of [randomElements]:
    [for (i = 0; i < count && copy.length; i++)
       { idx = floor(random * copy.length); result.push(copy.splice(idx,1)[0]) }] *)
Fixpoint draw (count : nat) (copy : list string) : Rand (list string) :=
  match count with
  | O => ret []
  | S count' =>
      match copy with
      | [] => ret []
      | _ :: _ =>
          idx <- random_below (length copy) ;;
          rest <- draw count' (splice1 idx copy) ;;
          ret (nth idx copy "" :: rest)
      end
  end.

Definition randomElements (count : nat) : Rand (list string) :=
  draw count ELEMENTS.

(** [randomElements(1)[0]]; an empty array would give [undefined], which
    [join] prints as the empty string. *)
Definition randomElement : Rand string :=
  l <- randomElements 1 ;; ret (hd "" l).

(** ** Data model *)

Module Player.

(** [{ id: socket.id, name: username, score: 0 }] *)
Record t := mk { id : string; name : string; score : nat }.

End Player.

Module Ability.

(** An entry of [room.pending]. *)
Record t := mk {
  playerId : string;
  name : string;
  elements : list string;
  description : string;
  imageUrl : string;
  power : nat
}.

End Ability.

Inductive RoundType := standard | missing | evolution.

(** [{ players: [], currentRound: 0, roundType: 'standard', pending: [] }] *)
Record Room := mkRoom {
  players : list Player.t;
  currentRound : nat;
  roundType : RoundType;
  pending : list Ability.t
}.

Definition set_players (ps : list Player.t) (room : Room) : Room :=
  mkRoom ps (currentRound room) (roundType room) (pending room).

Definition set_pending (pd : list Ability.t) (room : Room) : Room :=
  mkRoom (players room) (currentRound room) (roundType room) pd.

Definition set_power (n : nat) (a : Ability.t) : Ability.t :=
  Ability.mk (Ability.playerId a) (Ability.name a) (Ability.elements a)
             (Ability.description a) (Ability.imageUrl a) n.

(** ** The registry [lobbies]

    [lobbies] is a plain object.  [Object.keys] lists its own keys with the
    array-index keys first, in increasing numeric order, and the other keys
    after them in creation order; the registry is kept as an association
    list in that order. *)
Definition Lobbies : Type := list (string * Room).

Definition is_digit (c : ascii) : bool :=
  (48 <=? nat_of_ascii c) && (nat_of_ascii c <=? 57).

Fixpoint digits_value (s : string) (acc : N) : option N :=
  match s with
  | EmptyString => Some acc
  | String c s' =>
      if is_digit c
      then digits_value s' (acc * 10 + (N_of_ascii c - 48))%N
      else None
  end.

(** A key is an array index when it is the canonical decimal form of an
    integer below [2^32 - 1]. *)
Definition array_index (key : string) : option N :=
  match key with
  | EmptyString => None
  | String c rest =>
      if Ascii.eqb c "0" && negb (String.eqb rest "") then None
      else match digits_value key 0 with
           | Some v => if (v <? 2 ^ 32 - 1)%N then Some v else None
           | None => None
           end
  end.

(** Own property of [lobbies]. *)
Fixpoint own (code : string) (l : Lobbies) : option Room :=
  match l with
  | [] => None
  | (k, room) :: l' => if String.eqb k code then Some room else own code l'
  end.

(** Writing through a room object found under [code]: the key keeps its
    place. *)
Fixpoint replace (code : string) (room : Room) (l : Lobbies) : Lobbies :=
  match l with
  | [] => []
  | (k, r) :: l' =>
      if String.eqb k code then (k, room) :: l'
      else (k, r) :: replace code room l'
  end.

Fixpoint insert_index (v : N) (code : string) (room : Room) (l : Lobbies)
  : Lobbies :=
  match l with
  | [] => [(code, room)]
  | (k, r) :: l' =>
      match array_index k with
      | Some vk =>
          if (vk <? v)%N then (k, r) :: insert_index v code room l'
          else (code, room) :: l
      | None => (code, room) :: l
      end
  end.

(** [lobbies[code] = room] *)
Definition assign (code : string) (room : Room) (l : Lobbies) : Lobbies :=
  match own code l with
  | Some _ => replace code room l
  | None =>
      match array_index code with
      | Some v => insert_index v code room l
      | None => l ++ [(code, room)]
      end
  end.

(** [delete lobbies[code]] *)
Fixpoint delete (code : string) (l : Lobbies) : Lobbies :=
  match l with
  | [] => []
  | (k, r) :: l' =>
      if String.eqb k code then l' else (k, r) :: delete code l'
  end.

(** [lobbies] is created by [{}], so a key that is not an own property is
    looked up in [Object.prototype].  These are its property names; each of
    them holds a function or an object, hence a truthy value that is not a
    room. *)
Definition Object_prototype : list string :=
  ["constructor"; "__defineGetter__"; "__defineSetter__"; "hasOwnProperty";
   "__lookupGetter__"; "__lookupSetter__"; "isPrototypeOf";
   "propertyIsEnumerable"; "toString"; "valueOf"; "__proto__";
   "toLocaleString"].

Inductive Lookup :=
| Own (room : Room)      (* a room of the registry *)
| Inherited              (* a member of [Object.prototype] *)
| Undefined.             (* [undefined]: [!room] holds *)

(** [lobbies[roomCode]] *)
Definition lobbies_get (code : string) (l : Lobbies) : Lookup :=
  match own code l with
  | Some room => Own room
  | None =>
      if existsb (String.eqb code) Object_prototype then Inherited
      else Undefined
  end.

(** ** Messages *)

Inductive Dest :=
| ToSocket (id : string)       (* [socket.emit] *)
| ToRoom (roomCode : string).  (* [io.to(roomCode).emit] *)

(** [room.players.map(p => ({ name: p.name, score: p.score }))] *)
Definition scores (room : Room) : list (string * nat) :=
  map (fun p => (Player.name p, Player.score p)) (players room).

Inductive Payload :=
| roomCreated (roomCode : string)
| errorMessage (text : string)
| roomJoined (players : list Player.t)
| roundStart (round : nat) (type : RoundType) (sets : list (list string))
             (scores : list (string * nat))
| battleResult (round : nat) (winner : string) (a b : Ability.t)
               (scores : list (string * nat)) (narrative : string)
| gameOver (scores : list (string * nat))
| playerLeft (id : string).

Definition Emitted : Type := Dest * Payload.

(** ** AI opponent *)

Definition join (sep : string) (l : list string) : string :=
  String.concat sep l.

(** The object pushed by [createAIPlayer]. *)
Definition AI_entry (e1 e2 : string) (p : nat) : Ability.t :=
  Ability.mk "AI" "AI Bot" [e1; e2]
             ("AI uses " ++ join " and " [e1; e2])%string "" p.

Definition createAIPlayer (room : Room) : Rand Room :=
  e1 <- randomElement ;;
  e2 <- randomElement ;;
  p <- random_below 101 ;;
  ret (set_pending (pending room ++ [AI_entry e1 e2 p]) room).

(** ** Arbitration *)

(** What the call to the completion endpoint comes to. *)
Inductive Oracle :=
| no_key                          (* [process.env.OPENAI_API_KEY] is unset *)
| threw                           (* the [try] block throws before line 68 *)
| answered (content : option string).
    (* [data.choices?.[0]?.message?.content]: a string or [undefined] *)

Definition is_space (c : ascii) : bool :=
  let n := nat_of_ascii c in
  (9 <=? n) && (n <=? 13) || (n =? 32).

Fixpoint trim_start (s : string) : string :=
  match s with
  | EmptyString => EmptyString
  | String c s' => if is_space c then trim_start s' else s
  end.

Fixpoint trim_end (s : string) : string :=
  match s with
  | EmptyString => EmptyString
  | String c s' =>
      match trim_end s' with
      | EmptyString => if is_space c then EmptyString else String c EmptyString
      | t => String c t
      end
  end.

(** [String.prototype.trim], for the ASCII white space. *)
Definition trim (s : string) : string := trim_end (trim_start s).

Definition answer_is (letter : string) (answer : option string) : bool :=
  match answer with
  | Some s => String.eqb s letter
  | None => false
  end.

Definition evaluateAbilities (reply : Oracle) (a b : Ability.t)
  : Rand (Ability.t * Ability.t) :=
  match reply with
  | answered content =>
      let answer := option_map trim content in
      pa <- random_below 101 ;;
      pb <- random_below 101 ;;
      let a := set_power pa a in
      let b := set_power pb b in
      let a := if answer_is "A" answer then set_power (Ability.power b + 1) a
               else a in
      let b := if answer_is "B" answer then set_power (Ability.power a + 1) b
               else b in
      ret (a, b)
  | no_key | threw =>
      pa <- random_below 101 ;;
      pb <- random_below 101 ;;
      ret (set_power pa a, set_power pb b)
  end.

(** ** Handlers *)

(** What a handler leaves behind. *)
Inductive Outcome :=
| Done (l : Lobbies) (out : list Emitted)
| Escapes.
    (* the handler wrote into a member of [Object.prototype], or its
       exception left the handler: the run is outside this model *)

(** [Math.random().toString(36).substring(2, 6).toUpperCase()]: the first
    four base-36 digits of the draw, fewer when the expansion ends earlier.
    The digits are those of the exact expansion; the shortening done by the
    number-to-string conversion is not modelled. *)
Definition digit36 (d : N) : ascii :=
  if (d <? 10)%N then ascii_of_N (48 + d) else ascii_of_N (55 + d).

Fixpoint frac36 (n : nat) (u : N) : string :=
  match n with
  | O => EmptyString
  | S n' =>
      if (u =? 0)%N then EmptyString
      else String (digit36 (u * 36 / RES)) (frac36 n' (u * 36 mod RES)%N)
  end.

Definition newRoomCode : Rand string :=
  u <- Math_random ;; ret (frac36 4 u).

Definition on_createRoom (socket username : string) (l : Lobbies)
  : Rand Outcome :=
  roomCode <- newRoomCode ;;
  ret (Done (assign roomCode
                    (mkRoom [Player.mk socket username 0] 0 standard []) l)
            [(ToSocket socket, roomCreated roomCode)]).

Definition on_joinRoom (socket username roomCode : string) (l : Lobbies)
  : Rand Outcome :=
  match lobbies_get roomCode l with
  | Undefined =>
      ret (Done l [(ToSocket socket, errorMessage "Room not found")])
  | Inherited =>
      (* [room.players] is undefined: TypeError, caught *)
      ret (Done l [(ToSocket socket, errorMessage "Could not join room")])
  | Own room =>
      let room :=
        set_players (players room ++ [Player.mk socket username 0]) room in
      ret (Done (replace roomCode room l)
                [(ToRoom roomCode, roomJoined (players room))])
  end.

(** The body of [startRound] once the room is found. *)
Definition startRound_room (roomCode : string) (room : Room)
  : Rand (Room * list Emitted) :=
  let round := S (currentRound room) in
  rand <- Math_random ;;
  s1 <- randomElements 3 ;;
  s2 <- randomElements 3 ;;
  typed <-
    (if (rand * 100 <? 33 * RES)%N then
       m1 <- randomElements 3 ;; ret (missing, [m1])
     else if (rand * 100 <? 66 * RES)%N then
       e1 <- randomElements 3 ;;
       e2 <- randomElements 3 ;;
       e3 <- randomElements 3 ;;
       ret (evolution, [e1; e2; e3])
     else ret (standard, [s1; s2])) ;;
  let room := mkRoom (players room) round (fst typed) [] in
  ret (room,
       [(ToRoom roomCode,
         roundStart round (fst typed) (snd typed) (scores room))]).

Definition startRound (roomCode : string) (l : Lobbies) : Rand Outcome :=
  match lobbies_get roomCode l with
  | Undefined => ret (Done l [])
  | Inherited => ret Escapes
  | Own room =>
      r <- startRound_room roomCode room ;;
      ret (Done (replace roomCode (fst r) l) (snd r))
  end.

(** [room.players.find(p => p.id === socket.id)?.name || 'Unknown'] *)
Definition senderName (socket : string) (room : Room) : string :=
  match find (fun p => String.eqb (Player.id p) socket) (players room) with
  | Some p =>
      if String.eqb (Player.name p) "" then "Unknown" else Player.name p
  | None => "Unknown"
  end.

Definition winnerOf (a b : Ability.t) : string :=
  let winner := "tie" in
  let winner :=
    if Ability.power b <? Ability.power a then Ability.playerId a
    else winner in
  let winner :=
    if Ability.power a <? Ability.power b then Ability.playerId b
    else winner in
  winner.

(** [const w = room.players.find(p => p.id === winner); if (w) w.score++] *)
Fixpoint score_up (winner : string) (ps : list Player.t) : list Player.t :=
  match ps with
  | [] => []
  | p :: ps' =>
      if String.eqb (Player.id p) winner
      then Player.mk (Player.id p) (Player.name p) (S (Player.score p)) :: ps'
      else p :: score_up winner ps'
  end.

Definition narrative (a b : Ability.t) : string :=
  (Ability.name a ++ " (" ++ join " + " (Ability.elements a) ++ ") vs "
   ++ Ability.name b ++ " (" ++ join " + " (Ability.elements b) ++ ")")%string.

(** [if (room.pending.length >= 2) { ... }], on [pending[0]] and
    [pending[1]]; the powers are written into the two pending entries. *)
Definition battle (roomCode : string) (reply : Oracle) (room : Room)
  : Rand (Room * list Emitted) :=
  match pending room with
  | a0 :: b0 :: rest =>
      ab <- evaluateAbilities reply a0 b0 ;;
      let a := fst ab in
      let b := snd ab in
      let winner := winnerOf a b in
      let ps :=
        if String.eqb winner "tie" then players room
        else score_up winner (players room) in
      let room := mkRoom ps (currentRound room) (roundType room)
                         (a :: b :: rest) in
      ret (room,
           [(ToRoom roomCode,
             battleResult (currentRound room) winner a b (scores room)
                          (narrative a b))])
  | _ => ret (room, [])
  end.

(** The first half of the [playerChoice] handler once the room is found:
    the padding of a [missing] round, the push onto [pending], and the AI
    opponent of a lone player. *)
Definition submit (socket : string) (elements : list string)
    (description imageUrl : string) (room : Room) : Rand Room :=
  elements <-
    (match roundType room with
     | missing => e <- randomElement ;; ret (elements ++ [e])
     | _ => ret elements
     end) ;;
  let room :=
    set_pending
      (pending room ++
       [Ability.mk socket (senderName socket room) elements description
                   imageUrl 0])
      room in
  if (length (players room) =? 1) && (length (pending room) =? 1)
  then createAIPlayer room else ret room.

Definition playerChoice_room (socket roomCode : string)
    (elements : list string) (description imageUrl : string)
    (reply : Oracle) (room : Room) : Rand (Room * list Emitted) :=
  room <- submit socket elements description imageUrl room ;;
  battle roomCode reply room.

Definition on_playerChoice (socket roomCode : string)
    (elements : list string) (description imageUrl : string)
    (reply : Oracle) (l : Lobbies) : Rand Outcome :=
  match lobbies_get roomCode l with
  | Undefined => ret (Done l [])
  | Inherited =>
      (* [room.pending] is undefined: TypeError, caught *)
      ret (Done l
             [(ToSocket socket, errorMessage "Problem submitting choice")])
  | Own room =>
      r <- playerChoice_room socket roomCode elements description imageUrl
                             reply room ;;
      ret (Done (replace roomCode (fst r) l) (snd r))
  end.

Definition on_requestNextRound (roomCode : string) (l : Lobbies)
  : Rand Outcome :=
  match lobbies_get roomCode l with
  | Undefined => ret (Done l [])
  | Inherited => ret Escapes   (* no [currentRound]: falls to [startRound] *)
  | Own room =>
      if 5 <=? currentRound room then
        ret (Done (delete roomCode l)
                  [(ToRoom roomCode, gameOver (scores room))])
      else startRound roomCode l
  end.

(** [room.players.findIndex(p => p.id === socket.id)] *)
Fixpoint findIndex (socket : string) (ps : list Player.t) : option nat :=
  match ps with
  | [] => None
  | p :: ps' =>
      if String.eqb (Player.id p) socket then Some 0
      else option_map S (findIndex socket ps')
  end.

(** The [for] loop of the disconnect handler up to its [break]: the first
    room, in key order, that has the socket among its players. *)
Fixpoint scan (socket : string) (l : Lobbies)
  : option (string * Room * nat) :=
  match l with
  | [] => None
  | (code, room) :: l' =>
      match findIndex socket (players room) with
      | Some idx => Some (code, room, idx)
      | None => scan socket l'
      end
  end.

Definition on_disconnect (socket : string) (l : Lobbies) : Rand Outcome :=
  match scan socket l with
  | None => ret (Done l [])
  | Some (code, room, idx) =>
      let room := set_players (splice1 idx (players room)) room in
      let out := [(ToRoom code, playerLeft socket)] in
      if length (players room) =? 0 then ret (Done (delete code l) out)
      else if length (players room) =? 1 then
        room <- createAIPlayer room ;;
        ret (Done (replace code room l) out)
      else ret (Done (replace code room l) out)
  end.

(** ** The server as a transition system *)

Inductive Event :=
| createRoom (socket username : string)
| joinRoom (socket username roomCode : string)
| startGame (socket roomCode : string)
| playerChoice (socket roomCode : string) (elements : list string)
               (description imageUrl : string) (reply : Oracle)
| requestNextRound (socket roomCode : string)
| disconnect (socket : string).

Definition handle (e : Event) : Lobbies -> Rand Outcome :=
  match e with
  | createRoom socket username => on_createRoom socket username
  | joinRoom socket username roomCode => on_joinRoom socket username roomCode
  | startGame _ roomCode => startRound roomCode
  | playerChoice socket roomCode elements description imageUrl reply =>
      on_playerChoice socket roomCode elements description imageUrl reply
  | requestNextRound _ roomCode => on_requestNextRound roomCode
  | disconnect socket => on_disconnect socket
  end.

Record World := mkWorld { lobbies : Lobbies; rng : list N }.

Definition step (e : Event) (w : World) : option (World * list Emitted) :=
  match handle e (lobbies w) (rng w) with
  | (Done l out, s) => Some (mkWorld l s, out)
  | (Escapes, _) => None
  end.

(** A run of events from a world, with everything emitted on the way. *)
Fixpoint run (es : list Event) (w : World)
  : option (World * list Emitted) :=
  match es with
  | [] => Some (w, [])
  | e :: es' =>
      match step e w with
      | Some (w1, out1) =>
          match run es' w1 with
          | Some (w2, out2) => Some (w2, out1 ++ out2)
          | None => None
          end
      | None => None
      end
  end.

(** The server at start-up, with the draws [s] ahead of it. *)
Definition boot (s : list N) : World := mkWorld [] s.

Definition is_battleResult (m : Emitted) : bool :=
  match snd m with
  | battleResult _ _ _ _ _ _ => true
  | _ => false
  end.

Definition is_gameOver (m : Emitted) : bool :=
  match snd m with
  | gameOver _ => true
  | _ => false
  end.

(** A registry has one entry per key. *)
Definition wf (l : Lobbies) : Prop := NoDup (map fst l).

(** Which side the reply of the endpoint names, after [trim]. *)
Inductive Verdict := favoursA | favoursB | undecided.

Definition verdict (reply : Oracle) : Verdict :=
  match reply with
  | answered (Some content) =>
      if String.eqb (trim content) "A" then favoursA
      else if String.eqb (trim content) "B" then favoursB
      else undecided
  | _ => undecided
  end.

(** The two baseline draws of [evaluateAbilities]. *)
Definition baseline (s : list N) : nat * nat :=
  fst ((pa <- random_below 101 ;; pb <- random_below 101 ;; ret (pa, pb)) s).

(** A draw that [Math.floor(Math.random() * 101)] maps to [x]. *)
Definition draw_for (x : nat) : N := ((N.of_nat x * RES + 100) / 101)%N.

(** Socket ids are generated by the transport (20 characters); none of them
    is one of the two sentinels the server uses as [playerId] or [winner]. *)
Definition socket_ids (room : Room) : Prop :=
  Forall (fun p => Player.id p <> "tie" /\ Player.id p <> "AI")
         (players room).

(** The point a player at index [i] gains when [winner] wins. *)
Definition gain (winner : string) (ps : list Player.t) (i : nat) : nat :=
  match findIndex winner ps with
  | Some j => if j =? i then 1 else 0
  | None => 0
  end.

(** Whether event [e], arriving in world [w], registers a room under
    [code]. *)
Definition creates (code : string) (e : Event) (w : World) : bool :=
  match e with
  | createRoom _ _ => String.eqb (fst (newRoomCode (rng w))) code
  | _ => false
  end.

(** No [createRoom] of the run draws [code]. *)
Fixpoint keeps (code : string) (es : list Event) (w : World) : bool :=
  match es with
  | [] => true
  | e :: es' =>
      negb (creates code e w)
      && match step e w with
         | Some (w1, _) => keeps code es' w1
         | None => true
         end
  end.

(** A lone player about to open the round: the room in which the AI
    opponent is spawned by the next submission. *)
Definition lone (room : Room) : bool :=
  (length (players room) =? 1) && (length (pending room) =? 0).

(** How a handler other than [createRoom] may leave the registry. *)
Inductive updates (l : Lobbies) : Lobbies -> Prop :=
| up_same : updates l l
| up_replace (code : string) (room room' : Room) :
    own code l = Some room ->
    currentRound room <= currentRound room' ->
    updates l (replace code room' l)
| up_delete (code : string) : updates l (delete code l).

(** ** Concrete instances *)

(** The draw 0.5, whose room code is ["I"]. *)
Definition half : N := 2 ^ 52.

(** A registry with one room, of one player, before the first round. *)

Definition lobby_I : World :=
  mkWorld [("I", mkRoom [Player.mk "s1" "ann" 0] 0 standard [])] [].

(** Two players with one pending entry each. *)
Definition duel : Room :=
  mkRoom [Player.mk "s1" "ann" 2; Player.mk "s2" "bob" 0] 3 standard
         [Ability.mk "s1" "ann" ["Fire"; "Ice"] "steam" "" 0;
          Ability.mk "s2" "bob" ["Air"; "Metal"] "blades" "" 0].

(** A lone player at the start of a [missing] round. *)
Definition missing_lobby : Room :=
  mkRoom [Player.mk "s1" "ann" 0] 1 missing [].

(** A registry with one room of two players. *)
Definition pair_lobby : World :=
  mkWorld [("I", mkRoom [Player.mk "s1" "ann" 0; Player.mk "s2" "bob" 1] 2
                        standard [])] [].

(** ** What the handlers do to a room and to the registry *)

(** The room registered by [createRoom]. *)
Definition fresh_room (socket username : string) : Room :=
  mkRoom [Player.mk socket username 0] 0 standard [].

(** The ways in which a handler rewrites a registered room. *)
Inductive room_op (room : Room) : Room -> Prop :=
| op_join (socket username : string) :
    room_op room
      (set_players (players room ++ [Player.mk socket username 0]) room)
| op_start (roomCode : string) (s : list N) :
    room_op room (fst (fst (startRound_room roomCode room s)))
| op_choice (socket roomCode : string) (elements : list string)
            (description imageUrl : string) (reply : Oracle) (s : list N) :
    room_op room
      (fst (fst (playerChoice_room socket roomCode elements description
                                   imageUrl reply room s)))
| op_leave (idx : nat) :
    idx < length (players room) ->
    2 <= length (splice1 idx (players room)) ->
    room_op room (set_players (splice1 idx (players room)) room)
| op_leave_ai (idx : nat) (s : list N) :
    idx < length (players room) ->
    length (splice1 idx (players room)) = 1 ->
    room_op room
      (fst (createAIPlayer (set_players (splice1 idx (players room)) room)
                           s)).

(** The ways in which a handler rewrites the registry. *)
Inductive registry_op (l : Lobbies) : Lobbies -> Prop :=
| reg_same : registry_op l l
| reg_room (code : string) (room room' : Room) :
    own code l = Some room ->
    room_op room room' ->
    registry_op l (replace code room' l)
| reg_delete (code : string) : registry_op l (delete code l)
| reg_create (s : list N) (socket username : string) :
    registry_op l
      (assign (fst (newRoomCode s)) (fresh_room socket username) l).

(** The room code an event is about: the code drawn by [createRoom], the
    [roomCode] of the payload, the room the disconnect handler stops at. *)
Definition target (e : Event) (w : World) : option string :=
  match e with
  | createRoom _ _ => Some (fst (newRoomCode (rng w)))
  | joinRoom _ _ roomCode => Some roomCode
  | startGame _ roomCode => Some roomCode
  | playerChoice _ roomCode _ _ _ _ => Some roomCode
  | requestNextRound _ roomCode => Some roomCode
  | disconnect socket =>
      match scan socket (lobbies w) with
      | Some (code, _, _) => Some code
      | None => None
      end
  end.

(** The socket an event comes from. *)
Definition sender (e : Event) : string :=
  match e with
  | createRoom socket _ => socket
  | joinRoom socket _ _ => socket
  | startGame socket _ => socket
  | playerChoice socket _ _ _ _ _ => socket
  | requestNextRound socket _ => socket
  | disconnect socket => socket
  end.

(** The points held in a room. *)
Definition total (room : Room) : nat :=
  list_sum (map Player.score (players room)).

(** Whether [winner] names a player of the room who is given the point. *)
Definition scoring (winner : string) (room : Room) : bool :=
  negb (String.eqb winner "tie")
  && match findIndex winner (players room) with
     | Some _ => true
     | None => false
     end.

(** The characters of a room code: a digit or an upper-case letter. *)
Definition code_char (c : ascii) : bool :=
  let n := nat_of_ascii c in
  (48 <=? n) && (n <=? 57) || (65 <=? n) && (n <=? 90).

Definition code_shape (code : string) : Prop :=
  String.length code <= 4
  /\ forallb code_char (list_ascii_of_string code) = true.

Definition is_roundStart (m : Emitted) : bool :=
  match snd m with
  | roundStart _ _ _ _ => true
  | _ => false
  end.

(** Every pending entry has a power of at most 101. *)
Definition powers_bounded (room : Room) : Prop :=
  Forall (fun a => Ability.power a <= 101) (pending room).

(** A set as [randomElements()] returns it: three distinct elements of the
    catalog. *)
Definition triple (set : list string) : Prop :=
  length set = 3 /\ NoDup set /\ incl set ELEMENTS.

(** [ps'] lists the players of [ps] in the same order, under the same ids
    and names, none with a lower score and at most one point more in all;
    it may list further players with no point after them. *)
Definition grows (ps ps' : list Player.t) : Prop :=
  (forall (i : nat) (p : Player.t),
      nth_error ps i = Some p ->
      exists p' : Player.t,
        nth_error ps' i = Some p'
        /\ Player.id p' = Player.id p
        /\ Player.name p' = Player.name p
        /\ Player.score p <= Player.score p' <= Player.score p + 1)
  /\ list_sum (map Player.score ps) <= list_sum (map Player.score ps')
     <= list_sum (map Player.score ps) + 1.

(** ** The variant of [startRound] in [src/unnamed/part_000] *)

Module OpenRouter.

(** As [startRound_room], except that the two default sets are drawn before
    the number that decides the round type. *)
Definition startRound_room (roomCode : string) (room : Room)
  : Rand (Room * list Emitted) :=
  let round := S (currentRound room) in
  s1 <- randomElements 3 ;;
  s2 <- randomElements 3 ;;
  rand <- Math_random ;;
  typed <-
    (if (rand * 100 <? 33 * RES)%N then
       m1 <- randomElements 3 ;; ret (missing, [m1])
     else if (rand * 100 <? 66 * RES)%N then
       e1 <- randomElements 3 ;;
       e2 <- randomElements 3 ;;
       e3 <- randomElements 3 ;;
       ret (evolution, [e1; e2; e3])
     else ret (standard, [s1; s2])) ;;
  let room := mkRoom (players room) round (fst typed) [] in
  ret (room,
       [(ToRoom roomCode,
         roundStart round (fst typed) (snd typed) (scores room))]).

End OpenRouter.

(** ** The client ([src/public/client.js]) *)

Module Client.

(** [currentSets] and [selected]; [null] is [None]. *)
Record State := mkState {
  currentSets : list (list string);
  selected : list (option string)
}.

(** The payload of the [playerChoice] event the client emits. *)
Record Choice := mkChoice {
  roomCode : string;
  elements : list string;
  description : string;
  imageUrl : string
}.

(** The cards built by [renderSets]: one per element of every set, each with
    the index of its row. *)
Fixpoint cards_from (index : nat) (sets : list (list string))
  : list (nat * string) :=
  match sets with
  | [] => []
  | set :: rest => map (pair index) set ++ cards_from (S index) rest
  end.

Definition cards (sets : list (list string)) : list (nat * string) :=
  cards_from 0 sets.

(** [selected = Array(sets.length).fill(null)] *)
Definition renderSets (sets : list (list string)) : list (option string) :=
  repeat None (length sets).

(** [socket.on('roundStart', ...)]: the sets are stored and rendered. *)
Definition on_roundStart (sets : list (list string)) (st : State) : State :=
  mkState sets (renderSets sets).

(** [selected[index] = el], for an index inside the array; the index of a
    card is the index of a row, so no write falls outside. *)
Fixpoint write {A} (index : nat) (x : A) (l : list A) : list A :=
  match l, index with
  | [], _ => []
  | _ :: l', O => x :: l'
  | y :: l', S index' => y :: write index' x l'
  end.

(** A click on the [n]-th card of the page; without such a card there is
    nothing to click. *)
Definition click (n : nat) (st : State) : State :=
  match nth_error (cards (currentSets st)) n with
  | Some (index, el) =>
      mkState (currentSets st) (write index (Some el) (selected st))
  | None => st
  end.

(** [selected.includes(null)] *)
Definition includes_null (sel : list (option string)) : bool :=
  existsb (fun x => match x with None => true | Some _ => false end) sel.

(** The clicks [ns], one after the other. *)
Definition clicks (ns : list nat) (st : State) : State :=
  fold_left (fun st n => click n st) ns st.

(** A pick, if any, is an element of the set of its row. *)
Definition picked (sel : option string) (set : list string) : Prop :=
  match sel with
  | Some el => In el set
  | None => True
  end.

(** [submitBtn.onclick]: nothing is emitted while a row has no pick. *)
Definition submit (code abilityDesc imageUrlInput : string) (st : State)
  : option Choice :=
  if includes_null (selected st) then None
  else Some (mkChoice code
               (map (fun x => match x with Some el => el | None => "" end)
                    (selected st))
               (trim abilityDesc) (trim imageUrlInput)).

(** A number inside a template literal. *)
Definition show (n : nat) : string := NilEmpty.string_of_uint (Nat.to_uint n).

Definition newline : string := String (ascii_of_nat 10) EmptyString.

(** The first line of the result: both names with their powers. *)
Definition versus (a b : Ability.t) : string :=
  (Ability.name a ++ " (" ++ show (Ability.power a) ++ ") vs "
   ++ Ability.name b ++ " (" ++ show (Ability.power b) ++ ")"
   ++ newline)%string.

(** [socket.on('battleResult', ...)]: the text put into [resultsDiv]. *)
Definition resultText (winner : string) (a b : Ability.t) : string :=
  let text := versus a b in
  if String.eqb winner "tie" then (text ++ "It's a tie!")%string
  else
    let winnerName :=
      match find (fun ab => String.eqb (Ability.playerId ab) winner) [a; b]
      with
      | Some ab => Ability.name ab
      | None => "undefined"
      end in
    (text ++ winnerName ++ " wins!")%string.

End Client.

(** ** Proof automation *)

(** Closes a conjunction of equations between closed terms by running the
    handlers. *)
Ltac evaluated :=
  repeat (split; [vm_compute; reflexivity|]); vm_compute; reflexivity.

(** Picks the witnesses of a closed existential by evaluation. *)
Ltac by_running := repeat eexists; evaluated.

(** ** Facts about the pool *)

Section Pool.

Lemma Math_random_lt (s : list N) : (fst (Math_random s) < RES)%N.
Proof.
  destruct s as [|k s]; cbn.
  - reflexivity.
  - apply N.mod_lt. discriminate.
Qed.

Lemma random_below_lt (n : nat) (s : list N) :
  0 < n -> fst (random_below n s) < n.
Proof.
  intros Hn. unfold random_below, bind, ret.
  pose proof (Math_random_lt s) as Hu.
  destruct (Math_random s) as [u s']; cbn [fst] in *.
  assert (u * N.of_nat n / RES < N.of_nat n)%N.
  { apply N.Div0.div_lt_upper_bound.
    revert Hu. generalize RES. intros R Hu. nia. }
  lia.
Qed.

Lemma splice1_length {A} (idx : nat) (l : list A) :
  idx < length l -> length (splice1 idx l) = pred (length l).
Proof.
  intros H. unfold splice1.
  rewrite length_app, length_firstn, length_skipn. lia.
Qed.

Lemma splice1_perm {A} (d : A) (idx : nat) (l : list A) :
  idx < length l -> Permutation (nth idx l d :: splice1 idx l) l.
Proof.
  revert idx. induction l as [|x l IH]; intros idx H; cbn in H.
  - lia.
  - destruct idx as [|idx]; cbn.
    + reflexivity.
    + etransitivity; [apply perm_swap|].
      constructor. apply (IH idx). lia.
Qed.

Lemma draw_spec (count : nat) :
  forall (copy : list string) (s s' : list N) (result : list string),
    draw count copy s = (result, s') ->
    NoDup copy ->
    length result = Nat.min count (length copy)
    /\ NoDup result
    /\ incl result copy
    /\ (length copy <= count -> Permutation result copy).
Proof.
  induction count as [|count IH]; intros copy s s' result Hrun Hnd.
  - injection Hrun as <- _. repeat split.
    + constructor.
    + intros x [].
    + intros Hle. destruct copy; [reflexivity | cbn in Hle; lia].
  - destruct copy as [|c copy'] eqn:Ecopy.
    + injection Hrun as <- _. repeat split; try constructor. intros x [].
    + rewrite <- Ecopy in *.
      assert (Hpos : 0 < length copy) by (subst copy; cbn; lia).
      assert (Hstep : draw (S count) copy s =
                (idx <- random_below (length copy) ;;
                 rest <- draw count (splice1 idx copy) ;;
                 ret (nth idx copy "" :: rest)) s)
        by (subst copy; reflexivity).
      rewrite Hstep in Hrun. clear Hstep. unfold bind, ret in Hrun.
      pose proof (random_below_lt (length copy) s Hpos) as Hidx.
      destruct (random_below (length copy) s) as [idx s1]; cbn [fst] in Hidx.
      pose proof (splice1_perm "" idx copy Hidx) as Hperm.
      assert (Hnd' : NoDup (nth idx copy "" :: splice1 idx copy)).
      { eapply Permutation_NoDup; [symmetry; exact Hperm | exact Hnd]. }
      apply NoDup_cons_iff in Hnd' as [Hnotin Hnd1].
      destruct (draw count (splice1 idx copy) s1) as [rest s2] eqn:Erest.
      injection Hrun as <- _.
      destruct (IH _ _ _ _ Erest Hnd1) as (Hlen & Hndr & Hincl & Hfull).
      rewrite splice1_length in Hlen by exact Hidx.
      rewrite splice1_length in Hfull by exact Hidx.
      repeat split.
      * cbn [length]. rewrite Hlen.
        destruct (length copy); [lia | reflexivity].
      * constructor; [|exact Hndr].
        intros Hin. apply Hnotin, Hincl, Hin.
      * intros x [<-|Hin].
        -- apply nth_In. exact Hidx.
        -- eapply Permutation_in; [exact Hperm|].
           right. apply Hincl, Hin.
      * intros Hle.
        etransitivity; [|exact Hperm].
        constructor. apply Hfull. lia.
Qed.

Lemma ELEMENTS_NoDup : NoDup ELEMENTS.
Proof.
  unfold ELEMENTS.
  repeat (constructor; [cbn; intuition discriminate|]).
  constructor.
Qed.

(** C8. [randomElements(count)] returns [min(count, 10)] pairwise distinct
    elements of the catalog [ELEMENTS], whose size is 10; a [count] of 10 or
    more returns the whole catalog, in some order. *)
Theorem randomElements_distinct_min (count extra : nat) (s : list N) :
  let result := fst (randomElements count s) in
  length ELEMENTS = 10
  /\ length result = Nat.min count (length ELEMENTS)
  /\ NoDup result
  /\ incl result ELEMENTS
  /\ Permutation (fst (randomElements (length ELEMENTS + extra) s)) ELEMENTS.
Proof.
  unfold randomElements.
  destruct (draw count ELEMENTS s) as [result s1] eqn:Erun.
  destruct (draw (length ELEMENTS + extra) ELEMENTS s) as [full s2] eqn:Efull.
  destruct (draw_spec _ _ _ _ _ Erun ELEMENTS_NoDup) as (Hlen & Hnd & Hin & _).
  destruct (draw_spec _ _ _ _ _ Efull ELEMENTS_NoDup) as (_ & _ & _ & Hperm).
  cbn [fst]. repeat split; try assumption.
  apply Hperm. lia.
Qed.

End Pool.

(** ** Facts about the arbitration *)

Section Arbitration.

Lemma winnerOf_first (a b : Ability.t) :
  Ability.power b < Ability.power a -> winnerOf a b = Ability.playerId a.
Proof.
  intros H. unfold winnerOf.
  apply Nat.ltb_lt in H as H1. rewrite H1.
  replace (Ability.power a <? Ability.power b) with false; [reflexivity|].
  symmetry. apply Nat.ltb_ge. lia.
Qed.

Lemma winnerOf_second (a b : Ability.t) :
  Ability.power a < Ability.power b -> winnerOf a b = Ability.playerId b.
Proof.
  intros H. unfold winnerOf.
  apply Nat.ltb_lt in H. rewrite H. reflexivity.
Qed.

Lemma winnerOf_tie (a b : Ability.t) :
  Ability.power a = Ability.power b -> winnerOf a b = "tie".
Proof.
  intros H. unfold winnerOf. rewrite H, Nat.ltb_irrefl. reflexivity.
Qed.

Lemma random_below_101 (s : list N) : fst (random_below 101 s) <= 100.
Proof.
  pose proof (random_below_lt 101 s). lia.
Qed.

Lemma draw_for_table :
  forallb (fun x => fst (random_below 101 [draw_for x]) =? x) (seq 0 101)
  = true.
Proof. vm_compute. reflexivity. Qed.

Lemma random_below_tail (n : nat) (k : N) (s : list N) :
  random_below n (k :: s) = (fst (random_below n [k]), s).
Proof. reflexivity. Qed.

Lemma draw_for_hits (x : nat) (s : list N) :
  x <= 100 -> random_below 101 (draw_for x :: s) = (x, s).
Proof.
  intros Hx. rewrite random_below_tail. f_equal.
  pose proof draw_for_table as Htab.
  rewrite forallb_forall in Htab.
  apply Nat.eqb_eq, Htab, in_seq. lia.
Qed.

Lemma baseline_eq (s : list N) :
  baseline s =
  (fst (random_below 101 s),
   fst (random_below 101 (snd (random_below 101 s)))).
Proof.
  unfold baseline, bind, ret.
  destruct (random_below 101 s) as [pa s1]; cbn [fst snd].
  destruct (random_below 101 s1) as [pb s2]. reflexivity.
Qed.

(** C7. When the reply names A, [a.power] is [b.power + 1], where [b.power]
    is the second of two baseline draws, so A wins and there is no tie;
    symmetrically when it names B, with the first draw as [a.power].  Without
    a key, on a failure, or on any other reply, the two powers are the two
    baseline draws.  Each baseline draw is an integer of [0,100] taken from
    its own call of [Math.random()], and every pair of [0,100]x[0,100] is
    produced by some pair of draws.  Nothing but the power is written. *)
Theorem evaluateAbilities_verdict
    (reply : Oracle) (a b : Ability.t) (s : list N) (x y : nat) :
  let a' := fst (fst (evaluateAbilities reply a b s)) in
  let b' := snd (fst (evaluateAbilities reply a b s)) in
  let pa := fst (baseline s) in
  let pb := snd (baseline s) in
  pa <= 100 /\ pb <= 100
  /\ baseline (draw_for (Nat.min x 100) :: draw_for (Nat.min y 100) :: s)
     = (Nat.min x 100, Nat.min y 100)
  /\ match verdict reply with
     | favoursA =>
         Ability.power a' = Ability.power b' + 1
         /\ Ability.power b' = pb
         /\ winnerOf a' b' = Ability.playerId a
     | favoursB =>
         Ability.power b' = Ability.power a' + 1
         /\ Ability.power a' = pa
         /\ winnerOf a' b' = Ability.playerId b
     | undecided =>
         Ability.power a' = pa /\ Ability.power b' = pb
     end
  /\ set_power 0 a' = set_power 0 a
  /\ set_power 0 b' = set_power 0 b.
Proof.
  cbv zeta. rewrite !baseline_eq. cbn [fst snd].
  split; [apply random_below_101|].
  split; [apply random_below_101|].
  split.
  { rewrite draw_for_hits by apply Nat.le_min_r. cbn [fst snd].
    rewrite draw_for_hits by apply Nat.le_min_r. reflexivity. }
  unfold evaluateAbilities, verdict.
  destruct reply as [| |[content|]]; unfold bind, ret;
    destruct (random_below 101 s) as [pa s1]; cbn [fst snd];
    destruct (random_below 101 s1) as [pb s2]; cbn [fst snd option_map answer_is];
    try (repeat split; reflexivity).
  destruct (String.eqb (trim content) "A") eqn:EA.
  - apply String.eqb_eq in EA. rewrite EA.
    cbn [String.eqb Ascii.eqb Bool.eqb set_power Ability.power fst snd].
    repeat split; try reflexivity.
    rewrite winnerOf_first; [reflexivity | cbn; lia].
  - destruct (String.eqb (trim content) "B") eqn:EB.
    + cbn [set_power Ability.power fst snd].
      repeat split; try reflexivity.
      rewrite winnerOf_second; [reflexivity | cbn; lia].
    + repeat split; reflexivity.
Qed.

End Arbitration.

(** ** Facts about the battle *)

Section Battle.

Lemma findIndex_absent (winner : string) (ps : list Player.t) :
  Forall (fun p => Player.id p <> winner) ps -> findIndex winner ps = None.
Proof.
  induction 1 as [|p ps Hp _ IH]; cbn.
  - reflexivity.
  - apply String.eqb_neq in Hp. rewrite Hp, IH. reflexivity.
Qed.

Lemma score_up_absent (winner : string) (ps : list Player.t) :
  findIndex winner ps = None -> score_up winner ps = ps.
Proof.
  induction ps as [|p ps IH]; cbn; intros H.
  - reflexivity.
  - destruct (String.eqb (Player.id p) winner); [discriminate|].
    destruct (findIndex winner ps); [discriminate|].
    rewrite IH; reflexivity.
Qed.

Lemma score_up_length (winner : string) (ps : list Player.t) :
  length (score_up winner ps) = length ps.
Proof.
  induction ps as [|p ps IH]; cbn.
  - reflexivity.
  - destruct (String.eqb (Player.id p) winner); cbn; congruence.
Qed.

Lemma player_eta (p : Player.t) :
  Player.mk (Player.id p) (Player.name p) (Player.score p + 0) = p.
Proof. destruct p; cbn. rewrite Nat.add_0_r. reflexivity. Qed.

Lemma score_up_nth (winner : string) (ps : list Player.t) :
  forall (i : nat) (p : Player.t),
    nth_error ps i = Some p ->
    nth_error (score_up winner ps) i =
    Some (Player.mk (Player.id p) (Player.name p)
                    (Player.score p + gain winner ps i)).
Proof.
  unfold gain.
  induction ps as [|q ps IH]; intros i p Hi.
  - destruct i; discriminate.
  - cbn [score_up findIndex].
    destruct (String.eqb (Player.id q) winner) eqn:Eq.
    + destruct i as [|i]; cbn in *.
      * injection Hi as ->. rewrite Nat.add_1_r. reflexivity.
      * rewrite Hi, player_eta. reflexivity.
    + destruct i as [|i]; cbn [nth_error] in *.
      * injection Hi as ->.
        destruct (findIndex winner ps); cbn; rewrite player_eta; reflexivity.
      * rewrite (IH i p Hi).
        destruct (findIndex winner ps); reflexivity.
Qed.

Lemma battle_eq (roomCode : string) (reply : Oracle) (room : Room)
    (a0 b0 : Ability.t) (rest : list Ability.t) (s : list N) :
  pending room = a0 :: b0 :: rest ->
  let a := fst (fst (evaluateAbilities reply a0 b0 s)) in
  let b := snd (fst (evaluateAbilities reply a0 b0 s)) in
  let ps := if String.eqb (winnerOf a b) "tie" then players room
            else score_up (winnerOf a b) (players room) in
  let room' := mkRoom ps (currentRound room) (roundType room)
                      (a :: b :: rest) in
  battle roomCode reply room s =
  (room',
   [(ToRoom roomCode,
     battleResult (currentRound room) (winnerOf a b) a b (scores room')
                  (narrative a b))],
   snd (evaluateAbilities reply a0 b0 s)).
Proof.
  intros Hp. unfold battle. rewrite Hp. unfold bind, ret.
  destruct (evaluateAbilities reply a0 b0 s) as [[a b] s1]. reflexivity.
Qed.

(** C2. The battle on the first two pending entries: the side with the
    strictly higher power gives the winner, equal powers give ["tie"] and
    leave the players as they were.  The first player whose id is the winner
    gains exactly one point and every other score is unchanged; the AI
    sentinel winning changes no score. *)
Theorem battle_winner_and_scores
    (roomCode : string) (reply : Oracle) (room : Room)
    (a0 b0 : Ability.t) (rest : list Ability.t) (s : list N) :
  pending room = a0 :: b0 :: rest ->
  socket_ids room ->
  let a := fst (fst (evaluateAbilities reply a0 b0 s)) in
  let b := snd (fst (evaluateAbilities reply a0 b0 s)) in
  let room' := fst (fst (battle roomCode reply room s)) in
  let out := snd (fst (battle roomCode reply room s)) in
  exists winner : string,
    out = [(ToRoom roomCode,
            battleResult (currentRound room) winner a b (scores room')
                         (narrative a b))]
    /\ (Ability.power b < Ability.power a -> winner = Ability.playerId a)
    /\ (Ability.power a < Ability.power b -> winner = Ability.playerId b)
    /\ (Ability.power a = Ability.power b ->
        winner = "tie" /\ players room' = players room)
    /\ (winner = "AI" -> players room' = players room)
    /\ length (players room') = length (players room)
    /\ (forall (i : nat) (p : Player.t),
          nth_error (players room) i = Some p ->
          nth_error (players room') i =
          Some (Player.mk (Player.id p) (Player.name p)
                          (Player.score p + gain winner (players room) i)))
    /\ pending room' = a :: b :: rest.
Proof.
  intros Hp Hids. cbv zeta.
  rewrite (battle_eq roomCode reply room a0 b0 rest s Hp). cbv zeta.
  cbn [fst snd players pending].
  set (a := fst (fst (evaluateAbilities reply a0 b0 s))).
  set (b := snd (fst (evaluateAbilities reply a0 b0 s))).
  assert (Htie : findIndex "tie" (players room) = None).
  { apply findIndex_absent. eapply Forall_impl; [|exact Hids].
    cbn. intros p [H _]. exact H. }
  assert (HAI : findIndex "AI" (players room) = None).
  { apply findIndex_absent. eapply Forall_impl; [|exact Hids].
    cbn. intros p [_ H]. exact H. }
  exists (winnerOf a b).
  split; [reflexivity|].
  split; [apply winnerOf_first|].
  split; [apply winnerOf_second|].
  split.
  { intros Heq. rewrite (winnerOf_tie a b Heq). split; reflexivity. }
  split.
  { intros ->. cbn [String.eqb Ascii.eqb Bool.eqb].
    apply score_up_absent, HAI. }
  split.
  { destruct (String.eqb (winnerOf a b) "tie");
      [reflexivity | apply score_up_length]. }
  split; [|reflexivity].
  intros i p Hi.
  destruct (String.eqb (winnerOf a b) "tie") eqn:Ew.
  - apply String.eqb_eq in Ew. rewrite Ew. unfold gain. rewrite Htie.
    rewrite player_eta. exact Hi.
  - apply score_up_nth, Hi.
Qed.

Lemma battle_winner_and_scores_witness :
  socket_ids duel
  /\ exists winner : string,
       winner = "s2"
       /\ nth_error
            (players (fst (fst (battle "I" (answered (Some " B")) duel []))))
            1
          = Some (Player.mk "s2" "bob" (0 + gain winner (players duel) 1)).
Proof.
  assert (Hids : socket_ids duel).
  { unfold socket_ids, duel; cbn.
    repeat constructor; discriminate. }
  split; [exact Hids|].
  destruct (battle_winner_and_scores "I" (answered (Some " B")) duel
              _ _ _ [] eq_refl Hids)
    as (winner & _ & _ & Hb & _ & _ & _ & Hnth & _).
  exists winner. split.
  - apply Hb. vm_compute. constructor.
  - exact (Hnth 1 (Player.mk "s2" "bob" 0) eq_refl).
Defined.

End Battle.

(** ** Facts about the registry *)

Section Registry.

Lemma own_get (code : string) (l : Lobbies) (room : Room) :
  own code l = Some room -> lobbies_get code l = Own room.
Proof. intros H. unfold lobbies_get. rewrite H. reflexivity. Qed.

Lemma own_absent (code : string) (l : Lobbies) :
  ~ In code (map fst l) -> own code l = None.
Proof.
  induction l as [|[k r] l IH]; cbn; intros H.
  - reflexivity.
  - destruct (String.eqb_spec k code) as [->|Hk].
    + exfalso. apply H. left. reflexivity.
    + apply IH. intros Hin. apply H. right. exact Hin.
Qed.

Lemma own_present (code : string) (l : Lobbies) (room : Room) :
  own code l = Some room -> In code (map fst l).
Proof.
  induction l as [|[k r] l IH]; cbn; intros H.
  - discriminate.
  - destruct (String.eqb_spec k code) as [->|Hk].
    + left. reflexivity.
    + right. apply IH, H.
Qed.

Lemma own_replace (code : string) (room' : Room) (l : Lobbies) :
  forall room, own code l = Some room ->
               own code (replace code room' l) = Some room'.
Proof.
  induction l as [|[k r] l IH]; cbn; intros room H.
  - discriminate.
  - destruct (String.eqb k code) eqn:Ek; cbn; rewrite Ek.
    + reflexivity.
    + apply (IH room H).
Qed.

Lemma own_replace_other (code code' : string) (room' : Room) (l : Lobbies) :
  code' <> code -> own code' (replace code room' l) = own code' l.
Proof.
  intros Hne. induction l as [|[k r] l IH]; cbn.
  - reflexivity.
  - destruct (String.eqb_spec k code) as [->|Hk]; cbn.
    + destruct (String.eqb_spec code code'); [congruence | reflexivity].
    + rewrite IH. reflexivity.
Qed.

Lemma replace_keys (code : string) (room' : Room) (l : Lobbies) :
  map fst (replace code room' l) = map fst l.
Proof.
  induction l as [|[k r] l IH]; cbn.
  - reflexivity.
  - destruct (String.eqb k code); cbn; congruence.
Qed.

Lemma delete_keys_in (code k : string) (l : Lobbies) :
  In k (map fst (delete code l)) -> In k (map fst l).
Proof.
  induction l as [|[k0 r] l IH]; cbn.
  - intros [].
  - destruct (String.eqb k0 code); cbn.
    + intros H. right. exact H.
    + intros [H|H]; [left; exact H | right; apply IH, H].
Qed.

Lemma delete_wf (code : string) (l : Lobbies) : wf l -> wf (delete code l).
Proof.
  unfold wf. induction l as [|[k r] l IH]; cbn; intros H.
  - constructor.
  - apply NoDup_cons_iff in H as [Hk Hl].
    destruct (String.eqb k code); cbn.
    + exact Hl.
    + constructor; [|apply IH, Hl].
      intros Hin. apply Hk. eapply delete_keys_in, Hin.
Qed.

Lemma own_delete (code : string) (l : Lobbies) :
  wf l -> own code (delete code l) = None.
Proof.
  unfold wf. induction l as [|[k r] l IH]; cbn; intros H.
  - reflexivity.
  - apply NoDup_cons_iff in H as [Hk Hl].
    destruct (String.eqb_spec k code) as [->|Hne].
    + apply own_absent, Hk.
    + cbn. destruct (String.eqb_spec k code); [congruence|].
      apply IH, Hl.
Qed.

Lemma own_delete_other (code code' : string) (l : Lobbies) :
  code' <> code -> own code' (delete code l) = own code' l.
Proof.
  intros Hne. induction l as [|[k r] l IH]; cbn.
  - reflexivity.
  - destruct (String.eqb_spec k code) as [->|Hk]; cbn.
    + destruct (String.eqb_spec code code'); [congruence | reflexivity].
    + rewrite IH. reflexivity.
Qed.

Lemma insert_index_perm (v : N) (code : string) (room : Room) (l : Lobbies) :
  Permutation (insert_index v code room l) ((code, room) :: l).
Proof.
  induction l as [|[k r] l IH]; cbn.
  - reflexivity.
  - destruct (array_index k) as [vk|]; [|reflexivity].
    destruct (vk <? v)%N; [|reflexivity].
    etransitivity; [apply perm_skip, IH | apply perm_swap].
Qed.

Lemma assign_perm (code : string) (room : Room) (l : Lobbies) :
  own code l = None -> Permutation (assign code room l) ((code, room) :: l).
Proof.
  intros H. unfold assign. rewrite H.
  destruct (array_index code).
  - apply insert_index_perm.
  - symmetry. apply Permutation_cons_append.
Qed.

Lemma own_none_notin (code : string) (l : Lobbies) :
  own code l = None -> ~ In code (map fst l).
Proof.
  induction l as [|[k r] l IH]; cbn; intros H.
  - intros [].
  - destruct (String.eqb_spec k code) as [->|Hk]; [discriminate|].
    intros [Hin|Hin]; [congruence | exact (IH H Hin)].
Qed.

Lemma assign_wf (code : string) (room : Room) (l : Lobbies) :
  wf l -> wf (assign code room l).
Proof.
  unfold wf. intros H.
  destruct (own code l) as [r|] eqn:Eown.
  - unfold assign. rewrite Eown, replace_keys. exact H.
  - eapply Permutation_NoDup.
    + symmetry. apply Permutation_map, assign_perm, Eown.
    + cbn. constructor; [apply own_none_notin, Eown | exact H].
Qed.

Lemma own_perm (code : string) (l l' : Lobbies) :
  Permutation l l' -> wf l -> own code l = own code l'.
Proof.
  unfold wf. induction 1 as [| [k r] l l' Hp IH | [k1 r1] [k2 r2] l
                             | l1 l2 l3 H12 IH12 H23 IH23]; intros Hwf.
  - reflexivity.
  - cbn in *. apply NoDup_cons_iff in Hwf as [_ Hl].
    rewrite (IH Hl). reflexivity.
  - cbn in *. apply NoDup_cons_iff in Hwf as [Hk _].
    destruct (String.eqb_spec k1 code) as [->|H1];
      destruct (String.eqb_spec k2 code) as [->|H2]; try reflexivity.
    exfalso. apply Hk. left. reflexivity.
  - rewrite IH12 by exact Hwf. apply IH23.
    eapply Permutation_NoDup; [apply Permutation_map, H12 | exact Hwf].
Qed.

Lemma own_assign (code : string) (room : Room) (l : Lobbies) :
  wf l -> own code (assign code room l) = Some room.
Proof.
  intros Hwf. destruct (own code l) as [r|] eqn:Eown.
  - unfold assign. rewrite Eown. apply (own_replace code room l r Eown).
  - rewrite (own_perm code _ _ (assign_perm code room l Eown)).
    + cbn. rewrite String.eqb_refl. reflexivity.
    + apply assign_wf, Hwf.
Qed.

Lemma own_assign_other (code code' : string) (room : Room) (l : Lobbies) :
  wf l -> code' <> code -> own code' (assign code room l) = own code' l.
Proof.
  intros Hwf Hne. destruct (own code l) as [r|] eqn:Eown.
  - unfold assign. rewrite Eown. apply own_replace_other, Hne.
  - rewrite (own_perm code' _ _ (assign_perm code room l Eown)).
    + cbn. destruct (String.eqb_spec code code'); [congruence | reflexivity].
    + apply assign_wf, Hwf.
Qed.

End Registry.

(** ** Facts about a submission *)

Section Submission.

Lemma randomElement_in (s : list N) : In (fst (randomElement s)) ELEMENTS.
Proof.
  unfold randomElement, randomElements, bind, ret.
  destruct (draw 1 ELEMENTS s) as [l s1] eqn:Erun. cbn [fst].
  destruct (draw_spec _ _ _ _ _ Erun ELEMENTS_NoDup) as (Hlen & _ & Hin & _).
  destruct l as [|e l]; [discriminate Hlen|].
  apply Hin. left. reflexivity.
Qed.

Lemma createAIPlayer_spec (room : Room) (s : list N) :
  exists (e1 e2 : string) (p : nat),
    fst (createAIPlayer room s)
    = set_pending (pending room ++ [AI_entry e1 e2 p]) room
    /\ In e1 ELEMENTS /\ In e2 ELEMENTS /\ p <= 100.
Proof.
  unfold createAIPlayer, bind, ret.
  pose proof (randomElement_in s) as H1.
  destruct (randomElement s) as [e1 s1]; cbn [fst] in H1.
  pose proof (randomElement_in s1) as H2.
  destruct (randomElement s1) as [e2 s2]; cbn [fst] in H2.
  pose proof (random_below_101 s2) as H3.
  destruct (random_below 101 s2) as [p s3]; cbn [fst] in *.
  exists e1, e2, p. repeat split; assumption.
Qed.

Lemma length_snoc_one {A} (l : list A) (x : A) :
  (length (l ++ [x]) =? 1) = (length l =? 0).
Proof.
  rewrite length_app, Nat.add_1_r. destruct (length l); reflexivity.
Qed.

Lemma submit_spec (socket : string) (elements : list string)
    (description imageUrl : string) (room : Room) (s : list N) :
  exists (sent : list string) (tail : list Ability.t),
    fst (submit socket elements description imageUrl room s)
    = set_pending
        (pending room ++
         Ability.mk socket (senderName socket room) sent description
                    imageUrl 0 :: tail)
        room
    /\ match roundType room with
       | missing => exists e, In e ELEMENTS /\ sent = elements ++ [e]
       | _ => sent = elements
       end
    /\ if lone room
       then exists e1 e2 p, tail = [AI_entry e1 e2 p] /\ p <= 100
       else tail = [].
Proof.
  unfold submit. unfold bind at 1.
  set (padded := match roundType room with
                 | missing => e <- randomElement ;; ret (elements ++ [e])
                 | _ => ret elements
                 end).
  assert (Hpad : match roundType room with
                 | missing =>
                     exists e, In e ELEMENTS /\ fst (padded s) = elements ++ [e]
                 | _ => fst (padded s) = elements
                 end).
  { subst padded. destruct (roundType room); try reflexivity.
    unfold bind, ret. pose proof (randomElement_in s) as He.
    destruct (randomElement s) as [e s1]. exists e. split; [exact He|].
    reflexivity. }
  destruct (padded s) as [sent s1]; cbn [fst] in Hpad.
  exists sent.
  cbn [players pending set_pending]. rewrite length_snoc_one. fold (lone room).
  destruct (lone room).
  - set (room1 := set_pending _ room).
    destruct (createAIPlayer_spec room1 s1) as (e1 & e2 & p & Heq & _ & _ & Hp).
    exists [AI_entry e1 e2 p]. rewrite Heq. subst room1.
    cbn [pending set_pending players currentRound roundType].
    rewrite <- app_assoc. cbn [app]. unfold set_pending. cbn.
    split; [reflexivity|]. split.
    + destruct (roundType room); assumption.
    + exists e1, e2, p. split; [reflexivity | exact Hp].
  - exists []. cbn [fst ret]. split; [reflexivity|]. split.
    + destruct (roundType room); assumption.
    + reflexivity.
Qed.

Lemma battle_short (roomCode : string) (reply : Oracle) (room : Room)
    (s : list N) :
  length (pending room) < 2 -> battle roomCode reply room s = (room, [], s).
Proof.
  intros H. unfold battle.
  destruct (pending room) as [|a [|b rest]]; cbn in H; try reflexivity.
  lia.
Qed.

End Submission.

(** ** Facts about rounds *)

Section Rounds.

Lemma randomElements_3 (s : list N) : length (fst (randomElements 3 s)) = 3.
Proof.
  unfold randomElements.
  destruct (draw 3 ELEMENTS s) as [l s1] eqn:Erun.
  destruct (draw_spec _ _ _ _ _ Erun ELEMENTS_NoDup) as (Hlen & _).
  exact Hlen.
Qed.

Lemma startRound_room_spec (roomCode : string) (room : Room) (s : list N) :
  exists (type : RoundType) (sets : list (list string)),
    fst (startRound_room roomCode room s)
    = (mkRoom (players room) (S (currentRound room)) type [],
       [(ToRoom roomCode,
         roundStart (S (currentRound room)) type sets (scores room))])
    /\ Forall (fun set => length set = 3) sets
    /\ length sets = match type with
                     | missing => 1
                     | standard => 2
                     | evolution => 3
                     end.
Proof.
  unfold startRound_room, bind, ret.
  destruct (Math_random s) as [rand s0].
  pose proof (randomElements_3 s0) as H1.
  destruct (randomElements 3 s0) as [set1 s1]; cbn [fst] in H1.
  pose proof (randomElements_3 s1) as H2.
  destruct (randomElements 3 s1) as [set2 s2]; cbn [fst] in H2.
  destruct (rand * 100 <? 33 * RES)%N.
  - pose proof (randomElements_3 s2) as H3.
    destruct (randomElements 3 s2) as [m1 s3]; cbn [fst] in H3.
    exists missing, [m1]. cbn [fst snd].
    repeat split. repeat constructor. exact H3.
  - destruct (rand * 100 <? 66 * RES)%N.
    + pose proof (randomElements_3 s2) as H3.
      destruct (randomElements 3 s2) as [e1 s3]; cbn [fst] in H3.
      pose proof (randomElements_3 s3) as H4.
      destruct (randomElements 3 s3) as [e2 s4]; cbn [fst] in H4.
      pose proof (randomElements_3 s4) as H5.
      destruct (randomElements 3 s4) as [e3 s5]; cbn [fst] in H5.
      exists evolution, [e1; e2; e3]. cbn [fst snd].
      repeat split. repeat constructor; assumption.
    + exists standard, [set1; set2]. cbn [fst snd].
      repeat split. repeat constructor; assumption.
Qed.

Lemma battle_round (roomCode : string) (reply : Oracle) (room : Room)
    (s : list N) :
  currentRound (fst (fst (battle roomCode reply room s))) = currentRound room.
Proof.
  destruct (pending room) as [|a0 [|b0 rest]] eqn:Hp.
  - rewrite battle_short by (rewrite Hp; cbn; lia). reflexivity.
  - rewrite battle_short by (rewrite Hp; cbn; lia). reflexivity.
  - rewrite (battle_eq roomCode reply room a0 b0 rest s Hp). reflexivity.
Qed.

Lemma playerChoice_room_round (socket roomCode : string)
    (elements : list string) (description imageUrl : string)
    (reply : Oracle) (room : Room) (s : list N) :
  currentRound
    (fst (fst (playerChoice_room socket roomCode elements description
                                 imageUrl reply room s)))
  = currentRound room.
Proof.
  unfold playerChoice_room, bind.
  destruct (submit_spec socket elements description imageUrl room s)
    as (sent & tail & Heq & _).
  destruct (submit socket elements description imageUrl room s)
    as [room1 s1]; cbn [fst] in Heq.
  rewrite battle_round. subst room1. reflexivity.
Qed.

Lemma scan_own (socket : string) (l : Lobbies) :
  wf l ->
  forall code room idx,
    scan socket l = Some (code, room, idx) ->
    own code l = Some room /\ findIndex socket (players room) = Some idx.
Proof.
  unfold wf. induction l as [|[k r] l IH]; cbn; intros Hwf code room idx H.
  - discriminate.
  - apply NoDup_cons_iff in Hwf as [Hk Hl].
    destruct (findIndex socket (players r)) as [i|] eqn:Ei.
    + injection H as <- <- <-. rewrite String.eqb_refl. split; [reflexivity|].
      exact Ei.
    + destruct (IH Hl code room idx H) as [Hown Hidx].
      split; [|exact Hidx].
      destruct (String.eqb_spec k code) as [->|Hne]; [|exact Hown].
      exfalso. apply Hk. eapply own_present, Hown.
Qed.

Lemma startRound_updates (roomCode : string) (l l' : Lobbies)
    (out : list Emitted) (s s' : list N) :
  startRound roomCode l s = (Done l' out, s') -> updates l l'.
Proof.
  unfold startRound. intros H.
  destruct (lobbies_get roomCode l) as [room| |] eqn:Eget.
  - unfold bind, ret in H.
    destruct (startRound_room_spec roomCode room s) as (t & sets & Heq & _).
    destruct (startRound_room roomCode room s) as [r s1]; cbn [fst] in Heq.
    injection H as <- _ _. subst r. cbn [fst].
    unfold lobbies_get in Eget.
    destruct (own roomCode l) as [room0|] eqn:Eown.
    + injection Eget as ->.
      apply (up_replace l roomCode room _ Eown). cbn. lia.
    + destruct (existsb _ _); discriminate.
  - discriminate.
  - injection H as <- _ _. constructor.
Qed.

Lemma get_Own (code : string) (l : Lobbies) (room : Room) :
  lobbies_get code l = Own room -> own code l = Some room.
Proof.
  unfold lobbies_get. destruct (own code l).
  - intros H. injection H as ->. reflexivity.
  - destruct (existsb _ _); discriminate.
Qed.

Lemma handle_updates (e : Event) (l l' : Lobbies) (out : list Emitted)
    (s s' : list N) :
  wf l ->
  (forall socket username, e <> createRoom socket username) ->
  handle e l s = (Done l' out, s') ->
  updates l l'.
Proof.
  intros Hwf Hnc H. destruct e as [so u | so u c | so c | so c els d img reply
                                   | so c | so]; cbn [handle] in H.
  - exfalso. exact (Hnc so u eq_refl).
  - unfold on_joinRoom in H.
    destruct (lobbies_get c l) as [room| |] eqn:Eget;
      injection H as <- _ _; try constructor.
    apply (up_replace l c room _ (get_Own _ _ _ Eget)). cbn. lia.
  - eapply startRound_updates, H.
  - unfold on_playerChoice in H.
    destruct (lobbies_get c l) as [room| |] eqn:Eget;
      try (injection H as <- _ _; constructor).
    unfold bind, ret in H.
    pose proof (playerChoice_room_round so c els d img reply room s) as Hr.
    destruct (playerChoice_room so c els d img reply room s) as [r s1].
    injection H as <- _ _.
    apply (up_replace l c room _ (get_Own _ _ _ Eget)).
    cbn [fst] in *. lia.
  - unfold on_requestNextRound in H.
    destruct (lobbies_get c l) as [room| |] eqn:Eget;
      try discriminate; try (injection H as <- _ _; constructor).
    destruct (5 <=? currentRound room).
    + injection H as <- _ _. constructor.
    + eapply startRound_updates, H.
  - unfold on_disconnect in H.
    destruct (scan so l) as [[[c room] idx]|] eqn:Escan.
    + destruct (scan_own so l Hwf c room idx Escan) as [Hown _].
      cbn [players set_players] in H.
      destruct (length (splice1 idx (players room)) =? 0).
      * injection H as <- _ _. constructor.
      * destruct (length (splice1 idx (players room)) =? 1).
        -- unfold bind, ret in H.
           set (room1 := set_players _ room) in H.
           destruct (createAIPlayer_spec room1 s) as (e1 & e2 & p & Heq & _).
           destruct (createAIPlayer room1 s) as [r s1]; cbn [fst] in Heq.
           injection H as <- _ _. subst r.
           apply (up_replace l c room _ Hown). cbn. lia.
        -- injection H as <- _ _.
           apply (up_replace l c room _ Hown). cbn. lia.
    + injection H as <- _ _. constructor.
Qed.

Lemma updates_wf (l l' : Lobbies) : updates l l' -> wf l -> wf l'.
Proof.
  intros [|c r r' _ _|c] Hwf.
  - exact Hwf.
  - unfold wf. rewrite replace_keys. exact Hwf.
  - apply delete_wf, Hwf.
Qed.

Lemma updates_round (code : string) (l l' : Lobbies) :
  updates l l' -> wf l ->
  (own code l = None -> own code l' = None)
  /\ (forall r r', own code l = Some r -> own code l' = Some r' ->
                   currentRound r <= currentRound r').
Proof.
  intros [|c r0 r1 Hown Hle|c] Hwf.
  - split; [tauto|]. intros r r' H H'. rewrite H in H'.
    injection H' as ->. lia.
  - destruct (String.eqb_spec code c) as [->|Hne].
    + split; [congruence|].
      intros r r' H H'. rewrite (own_replace c r1 l r0 Hown) in H'.
      rewrite Hown in H. injection H as <-. injection H' as <-. exact Hle.
    + rewrite (own_replace_other c code r1 l Hne).
      split; [tauto|]. intros r r' H H'. rewrite H in H'.
      injection H' as ->. lia.
  - destruct (String.eqb_spec code c) as [->|Hne].
    + rewrite (own_delete c l Hwf). split; [tauto | discriminate].
    + rewrite (own_delete_other c code l Hne).
      split; [tauto|]. intros r r' H H'. rewrite H in H'.
      injection H' as ->. lia.
Qed.

Lemma step_inv (e : Event) (w w' : World) (out : list Emitted) :
  step e w = Some (w', out) ->
  handle e (lobbies w) (rng w) = (Done (lobbies w') out, rng w').
Proof.
  unfold step. destruct (handle e (lobbies w) (rng w)) as [[l o|] s].
  - intros H. injection H as <- <-. reflexivity.
  - discriminate.
Qed.

Lemma step_createRoom (socket username : string) (w : World) :
  step (createRoom socket username) w
  = Some (mkWorld (assign (fst (newRoomCode (rng w)))
                          (mkRoom [Player.mk socket username 0] 0 standard [])
                          (lobbies w))
                  (snd (newRoomCode (rng w))),
          [(ToSocket socket, roomCreated (fst (newRoomCode (rng w))))]).
Proof.
  unfold step, handle, on_createRoom, bind, ret.
  destruct (newRoomCode (rng w)) as [c s1]. reflexivity.
Qed.

Lemma step_wf (e : Event) (w w' : World) (out : list Emitted) :
  wf (lobbies w) -> step e w = Some (w', out) -> wf (lobbies w').
Proof.
  intros Hwf Hstep.
  destruct e as [so u | so u c | so c | so c els d img reply | so c | so];
    try (apply step_inv in Hstep;
         eapply updates_wf; [|exact Hwf];
         refine (handle_updates _ _ _ _ _ _ Hwf _ Hstep);
         intros ? ?; discriminate).
  rewrite step_createRoom in Hstep. injection Hstep as <- _.
  apply assign_wf, Hwf.
Qed.

Lemma step_round (code : string) (e : Event) (w w' : World)
    (out : list Emitted) :
  wf (lobbies w) ->
  step e w = Some (w', out) ->
  creates code e w = false ->
  (own code (lobbies w) = None -> own code (lobbies w') = None)
  /\ (forall r r', own code (lobbies w) = Some r ->
                   own code (lobbies w') = Some r' ->
                   currentRound r <= currentRound r').
Proof.
  intros Hwf Hstep Hnc.
  destruct e as [so u | so u c | so c | so c els d img reply | so c | so];
    try (apply step_inv in Hstep;
         apply updates_round; [|exact Hwf];
         refine (handle_updates _ _ _ _ _ _ Hwf _ Hstep);
         intros ? ?; discriminate).
  rewrite step_createRoom in Hstep. injection Hstep as <- _.
  cbn [creates] in Hnc. apply String.eqb_neq in Hnc.
  cbn [lobbies].
  rewrite own_assign_other by (try exact Hwf; congruence).
  split; [tauto|]. intros r r' H H'. rewrite H in H'.
  injection H' as ->. lia.
Qed.

Lemma run_round (code : string) (es : list Event) :
  forall (w w' : World) (out : list Emitted),
    wf (lobbies w) ->
    run es w = Some (w', out) ->
    keeps code es w = true ->
    wf (lobbies w')
    /\ (own code (lobbies w) = None -> own code (lobbies w') = None)
    /\ (forall r r', own code (lobbies w) = Some r ->
                     own code (lobbies w') = Some r' ->
                     currentRound r <= currentRound r').
Proof.
  induction es as [|e es IH]; intros w w' out Hwf Hrun Hkeep.
  - injection Hrun as <- _. split; [exact Hwf|]. split; [tauto|].
    intros r r' H H'. rewrite H in H'. injection H' as ->. lia.
  - cbn [run keeps] in Hrun, Hkeep.
    apply andb_true_iff in Hkeep as [Hnc Hkeep].
    apply negb_true_iff in Hnc.
    destruct (step e w) as [[w1 out1]|] eqn:Hstep; [|discriminate].
    destruct (run es w1) as [[w2 out2]|] eqn:Hrest; [|discriminate].
    injection Hrun as <- _.
    pose proof (step_wf e w w1 out1 Hwf Hstep) as Hwf1.
    destruct (step_round code e w w1 out1 Hwf Hstep Hnc) as [Hn1 Hr1].
    destruct (IH w1 w2 out2 Hwf1 Hrest Hkeep) as (Hwf2 & Hn2 & Hr2).
    split; [exact Hwf2|]. split; [tauto|].
    intros r r' H H'.
    destruct (own code (lobbies w1)) as [r1|] eqn:E1.
    + specialize (Hr1 r r1 H eq_refl). specialize (Hr2 r1 r' eq_refl H'). lia.
    + rewrite (Hn2 eq_refl) in H'. discriminate.
Qed.

(** Every world the server reaches has one entry per room code. *)
Lemma run_wf (es : list Event) :
  forall (w w' : World) (out : list Emitted),
    wf (lobbies w) -> run es w = Some (w', out) -> wf (lobbies w').
Proof.
  induction es as [|e es IH]; intros w w' out Hwf Hrun.
  - injection Hrun as <- _. exact Hwf.
  - cbn [run] in Hrun.
    destruct (step e w) as [[w1 out1]|] eqn:Hstep; [|discriminate].
    destruct (run es w1) as [[w2 out2]|] eqn:Hrest; [|discriminate].
    injection Hrun as <- _.
    apply (IH w1 w2 out2); [|exact Hrest].
    apply (step_wf e w w1 out1 Hwf Hstep).
Qed.

Lemma reachable_wf (es : list Event) (s : list N) (w : World)
    (out : list Emitted) :
  run es (boot s) = Some (w, out) -> wf (lobbies w).
Proof.
  apply run_wf. unfold wf. cbn. constructor.
Qed.

Lemma step_requestNextRound (socket code : string) (w : World) (room : Room) :
  own code (lobbies w) = Some room ->
  step (requestNextRound socket code) w =
  if 5 <=? currentRound room
  then Some (mkWorld (delete code (lobbies w)) (rng w),
             [(ToRoom code, gameOver (scores room))])
  else Some (mkWorld (replace code
                        (fst (fst (startRound_room code room (rng w))))
                        (lobbies w))
                     (snd (startRound_room code room (rng w))),
             snd (fst (startRound_room code room (rng w)))).
Proof.
  intros Hown. unfold step, handle, on_requestNextRound.
  rewrite (own_get code (lobbies w) room Hown).
  destruct (5 <=? currentRound room); [reflexivity|].
  unfold startRound. rewrite (own_get code (lobbies w) room Hown).
  unfold bind, ret.
  destruct (startRound_room code room (rng w)) as [[r o] s1]. reflexivity.
Qed.

Lemma step_joinRoom_gone (socket username code : string) (w : World) :
  own code (lobbies w) = None ->
  exists text,
    step (joinRoom socket username code) w
    = Some (w, [(ToSocket socket, errorMessage text)]).
Proof.
  intros Hown. unfold step, handle, on_joinRoom, lobbies_get.
  rewrite Hown. destruct w as [l s]. cbn [lobbies rng].
  destruct (existsb (String.eqb code) Object_prototype);
    eexists; reflexivity.
Qed.

(** C3, amended.  Along any run in which no [createRoom] draws the code
    again, the [currentRound] of the room registered under a code never
    decreases.  [requestNextRound] on a room at round 5 or more broadcasts
    [gameOver] and removes the room, after which a lookup of the code finds no
    room ([joinRoom] is answered by an [errorMessage]); below round 5 it
    starts the next round, whose number is at most 5. *)
Theorem currentRound_monotone_gameOver
    (code socket : string) (es : list Event) (w w1 : World)
    (out : list Emitted) (room room1 : Room) :
  wf (lobbies w) ->
  run es w = Some (w1, out) ->
  keeps code es w = true ->
  own code (lobbies w) = Some room ->
  own code (lobbies w1) = Some room1 ->
  currentRound room <= currentRound room1
  /\ exists (w2 : World) (out2 : list Emitted),
       step (requestNextRound socket code) w1 = Some (w2, out2)
       /\ if 5 <=? currentRound room1
          then out2 = [(ToRoom code, gameOver (scores room1))]
               /\ own code (lobbies w2) = None
               /\ (forall so u, exists text,
                     step (joinRoom so u code) w2
                     = Some (w2, [(ToSocket so, errorMessage text)]))
          else exists (type : RoundType) (sets : list (list string))
                      (room2 : Room),
               out2 = [(ToRoom code,
                        roundStart (S (currentRound room1)) type sets
                                   (scores room1))]
               /\ own code (lobbies w2) = Some room2
               /\ currentRound room2 = S (currentRound room1)
               /\ currentRound room2 <= 5.
Proof.
  intros Hwf Hrun Hkeep Hown Hown1.
  destruct (run_round code es w w1 out Hwf Hrun Hkeep) as (Hwf1 & _ & Hmono).
  split; [exact (Hmono room room1 Hown Hown1)|].
  rewrite (step_requestNextRound socket code w1 room1 Hown1).
  destruct (5 <=? currentRound room1) eqn:Hfive.
  - eexists; eexists. split; [reflexivity|].
    split; [reflexivity|]. cbn [lobbies].
    pose proof (own_delete code (lobbies w1) Hwf1) as Hgone.
    split; [exact Hgone|].
    intros so u. apply step_joinRoom_gone. exact Hgone.
  - destruct (startRound_room_spec code room1 (rng w1))
      as (type & sets & Heq & _).
    destruct (startRound_room code room1 (rng w1)) as [[r o] s1].
    cbn [fst snd] in *. injection Heq as -> ->.
    eexists; eexists. split; [reflexivity|].
    exists type, sets. eexists.
    split; [reflexivity|]. cbn [lobbies].
    split; [apply (own_replace code _ (lobbies w1) room1 Hown1)|].
    apply Nat.leb_gt in Hfive. cbn [currentRound]. split; lia.
Qed.

Lemma currentRound_monotone_gameOver_witness :
  wf (lobbies lobby_I)
  /\ exists (w1 : World) (out : list Emitted) (room1 : Room),
       run [startGame "s1" "I"; startGame "s1" "I"] lobby_I = Some (w1, out)
       /\ own "I" (lobbies w1) = Some room1
       /\ 0 <= currentRound room1.
Proof.
  assert (Hwf : wf (lobbies lobby_I)).
  { unfold wf. cbn. repeat constructor. intros []. }
  split; [exact Hwf|].
  eexists; eexists; eexists.
  split; [vm_compute; reflexivity|].
  split; [vm_compute; reflexivity|].
  eapply (currentRound_monotone_gameOver
            "I" "s1" [startGame "s1" "I"; startGame "s1" "I"] lobby_I _ _
            (mkRoom [Player.mk "s1" "ann" 0] 0 standard []) _ Hwf).
  - vm_compute. reflexivity.
  - vm_compute. reflexivity.
  - reflexivity.
  - vm_compute. reflexivity.
Defined.

(** C3, the claim as stated fails: [startGame] increments [currentRound]
    without looking at it, so six of them take a live room to round 6. *)
Lemma currentRound_passes_five :
  exists (w : World) (out : list Emitted) (room : Room),
    run (createRoom "s1" "ann" :: repeat (startGame "s1" "I") 6) (boot [half])
    = Some (w, out)
    /\ own "I" (lobbies w) = Some room
    /\ currentRound room = 6
    /\ existsb is_gameOver out = false.
Proof. by_running. Qed.

End Rounds.

(** ** Facts about [playerChoice] *)

Section Choice.

Lemma step_playerChoice (socket code : string) (elements : list string)
    (description imageUrl : string) (reply : Oracle) (w : World)
    (room : Room) :
  own code (lobbies w) = Some room ->
  let r := playerChoice_room socket code elements description imageUrl
                             reply room (rng w) in
  step (playerChoice socket code elements description imageUrl reply) w
  = Some (mkWorld (replace code (fst (fst r)) (lobbies w)) (snd r),
          snd (fst r)).
Proof.
  intros Hown. cbv zeta. unfold step, handle, on_playerChoice.
  rewrite (own_get code (lobbies w) room Hown). unfold bind, ret.
  destruct (playerChoice_room socket code elements description imageUrl
                              reply room (rng w)) as [[r o] s1].
  reflexivity.
Qed.

(** The handler on a registered room: the submission [sent] is pushed,
    followed by the AI entry for a lone player, and the battle runs on the
    room so obtained. *)
Lemma playerChoice_room_spec (socket code : string) (elements : list string)
    (description imageUrl : string) (reply : Oracle) (room : Room)
    (s : list N) :
  exists (sent : list string) (tail : list Ability.t) (s1 : list N),
    fst (playerChoice_room socket code elements description imageUrl reply
                           room s)
    = fst (battle code reply
             (set_pending
                (pending room ++
                 Ability.mk socket (senderName socket room) sent description
                            imageUrl 0 :: tail)
                room)
             s1)
    /\ match roundType room with
       | missing => exists e, In e ELEMENTS /\ sent = elements ++ [e]
       | _ => sent = elements
       end
    /\ if lone room
       then exists e1 e2 p, tail = [AI_entry e1 e2 p] /\ p <= 100
       else tail = [].
Proof.
  destruct (submit_spec socket elements description imageUrl room s)
    as (sent & tail & Heq & Hsent & Htail).
  unfold playerChoice_room, bind.
  destruct (submit socket elements description imageUrl room s)
    as [room1 s1]; cbn [fst] in Heq. subst room1.
  exists sent, tail, s1. repeat split; assumption.
Qed.

Lemma battle_pending_length (code : string) (reply : Oracle) (room : Room)
    (s : list N) :
  length (pending (fst (fst (battle code reply room s))))
  = length (pending room).
Proof.
  destruct (pending room) as [|a0 [|b0 rest]] eqn:Hp.
  - rewrite battle_short by (rewrite Hp; cbn; lia). cbn. rewrite Hp.
    reflexivity.
  - rewrite battle_short by (rewrite Hp; cbn; lia). cbn. rewrite Hp.
    reflexivity.
  - rewrite (battle_eq code reply room a0 b0 rest s Hp). reflexivity.
Qed.

(** What [battle] emits, by the length of [pending]. *)
Lemma battle_out (code : string) (reply : Oracle) (room : Room)
    (s : list N) :
  let room' := fst (fst (battle code reply room s)) in
  let out := snd (fst (battle code reply room s)) in
  if 2 <=? length (pending room)
  then exists winner a b rest,
         pending room' = a :: b :: rest
         /\ out = [(ToRoom code,
                    battleResult (currentRound room') winner a b
                                 (scores room') (narrative a b))]
  else out = [].
Proof.
  cbv zeta. destruct (pending room) as [|a0 [|b0 rest]] eqn:Hp.
  - rewrite battle_short by (rewrite Hp; cbn; lia). reflexivity.
  - rewrite battle_short by (rewrite Hp; cbn; lia). reflexivity.
  - rewrite (battle_eq code reply room a0 b0 rest s Hp).
    cbn [length Nat.leb fst snd pending currentRound].
    eexists; eexists; eexists; eexists. split; reflexivity.
Qed.

Lemma startRound_quiet (code : string) (l l' : Lobbies) (out : list Emitted)
    (s s' : list N) :
  startRound code l s = (Done l' out, s') -> filter is_battleResult out = [].
Proof.
  unfold startRound. intros H.
  destruct (lobbies_get code l) as [room| |].
  - unfold bind, ret in H.
    destruct (startRound_room_spec code room s) as (t & sets & Heq & _).
    destruct (startRound_room code room s) as [r s1]; cbn [fst] in Heq.
    injection H as _ <- _. rewrite Heq. reflexivity.
  - discriminate.
  - injection H as _ <- _. reflexivity.
Qed.

Lemma disconnect_out (socket : string) (l l' : Lobbies) (out : list Emitted)
    (s s' : list N) :
  on_disconnect socket l s = (Done l' out, s') ->
  match scan socket l with
  | Some (code, _, _) => out = [(ToRoom code, playerLeft socket)]
  | None => out = []
  end.
Proof.
  unfold on_disconnect.
  destruct (scan socket l) as [[[c room] idx]|].
  - cbn [players set_players].
    destruct (length (splice1 idx (players room)) =? 0).
    + intros H. injection H as _ <- _. reflexivity.
    + destruct (length (splice1 idx (players room)) =? 1).
      * unfold bind, ret. destruct (createAIPlayer _ s) as [r s1].
        intros H. injection H as _ <- _. reflexivity.
      * intros H. injection H as _ <- _. reflexivity.
  - intros H. injection H as _ <- _. reflexivity.
Qed.

(** C1, amended.  The battle is triggered by a [playerChoice] on a
    registered room and by nothing else.  The handler pushes one entry, two
    for a lone player whose [pending] was empty; the battle runs exactly when
    [pending] then holds at least two entries, it is evaluated on the first
    two of them and emits one [battleResult].  [pending] may hold more than
    two entries at that moment. *)
Theorem resolution_trigger (e : Event) (w w' : World) (out : list Emitted) :
  step e w = Some (w', out) ->
  match e with
  | playerChoice socket code _ _ _ _ =>
      match own code (lobbies w) with
      | Some room =>
          exists room' : Room,
            own code (lobbies w') = Some room'
            /\ length (pending room')
               = length (pending room) + (if lone room then 2 else 1)
            /\ if 2 <=? length (pending room')
               then exists winner a b rest,
                      pending room' = a :: b :: rest
                      /\ out = [(ToRoom code,
                                 battleResult (currentRound room') winner a b
                                              (scores room')
                                              (narrative a b))]
               else out = []
      | None => filter is_battleResult out = []
      end
  | _ => filter is_battleResult out = []
  end.
Proof.
  intros Hstep.
  destruct e as [so u | so u c | so c | so c els d img reply | so c | so].
  - rewrite step_createRoom in Hstep. injection Hstep as _ <-. reflexivity.
  - apply step_inv in Hstep. cbn [handle] in Hstep. unfold on_joinRoom in Hstep.
    destruct (lobbies_get c (lobbies w)); injection Hstep as _ <- _;
      reflexivity.
  - apply step_inv in Hstep. eapply startRound_quiet, Hstep.
  - destruct (own c (lobbies w)) as [room|] eqn:Hown.
    + rewrite (step_playerChoice so c els d img reply w room Hown) in Hstep.
      cbv zeta in Hstep. injection Hstep as <- <-. cbn [lobbies].
      destruct (playerChoice_room_spec so c els d img reply room (rng w))
        as (sent & tail & s1 & Heq & _ & Htail).
      rewrite Heq.
      set (room1 := set_pending _ room).
      exists (fst (fst (battle c reply room1 s1))).
      split; [apply (own_replace c _ (lobbies w) room Hown)|].
      assert (Hlen : length (pending room1)
                     = length (pending room) + (if lone room then 2 else 1)).
      { subst room1. cbn [pending set_pending]. rewrite length_app.
        destruct (lone room).
        - destruct Htail as (e1 & e2 & p & -> & _). reflexivity.
        - subst tail. reflexivity. }
      rewrite battle_pending_length.
      split; [exact Hlen|].
      apply battle_out.
    + apply step_inv in Hstep. cbn [handle] in Hstep.
      unfold on_playerChoice, lobbies_get in Hstep. rewrite Hown in Hstep.
      destruct (existsb _ _); injection Hstep as _ <- _; reflexivity.
  - apply step_inv in Hstep. cbn [handle] in Hstep.
    unfold on_requestNextRound in Hstep.
    destruct (lobbies_get c (lobbies w)) as [room| |]; try discriminate.
    + destruct (5 <=? currentRound room).
      * injection Hstep as _ <- _. reflexivity.
      * eapply startRound_quiet, Hstep.
    + injection Hstep as _ <- _. reflexivity.
  - apply step_inv in Hstep. cbn [handle] in Hstep.
    apply disconnect_out in Hstep.
    destruct (scan so (lobbies w)) as [[[c room] idx]|]; subst out;
      reflexivity.
Qed.

Lemma resolution_trigger_witness :
  exists (w' : World) (out : list Emitted) (room' : Room),
    step (playerChoice "s1" "I" ["Fire"; "Ice"] "steam" "" no_key) lobby_I
    = Some (w', out)
    /\ own "I" (lobbies w') = Some room'
    /\ length (pending room') = 2.
Proof.
  destruct (step (playerChoice "s1" "I" ["Fire"; "Ice"] "steam" "" no_key)
                 lobby_I) as [[w' out]|] eqn:Hstep; [|discriminate Hstep].
  destruct (resolution_trigger _ _ _ _ Hstep) as (room' & Hown & Hlen & _).
  exists w', out, room'.
  split; [reflexivity|]. split; [exact Hown | exact Hlen].
Defined.

(** C1, the claim as stated fails: in a room of two players, a third
    submission of the round triggers the battle with three pending entries. *)
Lemma resolution_with_three_pending :
  exists (w : World) (out0 : list Emitted) (w' : World) (out : list Emitted)
         (room' : Room),
    run [createRoom "s1" "ann"; joinRoom "s2" "bob" "I"; startGame "s1" "I";
         playerChoice "s1" "I" ["Fire"; "Ice"] "steam" "" no_key;
         playerChoice "s2" "I" ["Air"; "Metal"] "blades" "" no_key]
        (boot [half; RES - 1]%N)
    = Some (w, out0)
    /\ step (playerChoice "s1" "I" ["Earth"; "Light"] "dawn" "" no_key) w
       = Some (w', out)
    /\ existsb is_battleResult out = true
    /\ own "I" (lobbies w') = Some room'
    /\ length (pending room') = 3.
Proof. by_running. Qed.

Lemma evaluateAbilities_frame (reply : Oracle) (a b : Ability.t)
    (s : list N) :
  exists pa pb : nat,
    fst (evaluateAbilities reply a b s) = (set_power pa a, set_power pb b).
Proof.
  unfold evaluateAbilities.
  destruct reply as [| |content]; unfold bind, ret;
    destruct (random_below 101 s) as [pa s1];
    destruct (random_below 101 s1) as [pb s2]; cbn [fst];
    try (exists pa, pb; reflexivity).
  destruct (answer_is "A" (option_map trim content));
    destruct (answer_is "B" (option_map trim content));
    eexists; eexists; reflexivity.
Qed.

(** The battle writes powers and nothing else into [pending]. *)
Lemma battle_frame {A} (f : Ability.t -> A) (code : string) (reply : Oracle)
    (room : Room) (s : list N) :
  (forall n a, f (set_power n a) = f a) ->
  map f (pending (fst (fst (battle code reply room s))))
  = map f (pending room).
Proof.
  intros Hf. destruct (pending room) as [|a0 [|b0 rest]] eqn:Hp.
  - rewrite battle_short by (rewrite Hp; cbn; lia). cbn [fst].
    rewrite Hp. reflexivity.
  - rewrite battle_short by (rewrite Hp; cbn; lia). cbn [fst].
    rewrite Hp. reflexivity.
  - rewrite (battle_eq code reply room a0 b0 rest s Hp).
    cbn [fst pending map].
    destruct (evaluateAbilities_frame reply a0 b0 s) as (pa & pb & Heq).
    rewrite Heq. cbn [fst snd]. rewrite !Hf. reflexivity.
Qed.

Lemma lone_players (room : Room) :
  length (players room) = 1 ->
  lone room = (length (pending room) =? 0).
Proof. intros H. unfold lone. rewrite H. reflexivity. Qed.

(** C4, amended.  A [playerChoice] on a room of exactly one player always
    produces exactly one [battleResult] and nothing else.  The AI entry is
    pushed after the player's exactly when [pending] was empty, which brings
    [pending] to length 2; on a non-empty [pending] the handler pushes the
    player's entry alone. *)
Theorem lone_player_choice
    (socket code : string) (elements : list string)
    (description imageUrl : string) (reply : Oracle) (w : World)
    (room : Room) :
  own code (lobbies w) = Some room ->
  length (players room) = 1 ->
  exists (w' : World) (out : list Emitted) (room' : Room),
    step (playerChoice socket code elements description imageUrl reply) w
    = Some (w', out)
    /\ own code (lobbies w') = Some room'
    /\ map Ability.playerId (pending room')
       = map Ability.playerId (pending room)
         ++ socket :: (if length (pending room) =? 0 then ["AI"] else [])
    /\ length (pending room')
       = length (pending room)
         + (if length (pending room) =? 0 then 2 else 1)
    /\ exists winner a b rest,
         pending room' = a :: b :: rest
         /\ out = [(ToRoom code,
                    battleResult (currentRound room') winner a b
                                 (scores room') (narrative a b))].
Proof.
  intros Hown Hone.
  rewrite (step_playerChoice socket code elements description imageUrl reply
                             w room Hown).
  cbv zeta.
  destruct (playerChoice_room_spec socket code elements description imageUrl
                                   reply room (rng w))
    as (sent & tail & s1 & Heq & _ & Htail).
  rewrite (lone_players room Hone) in Htail.
  eexists; eexists; eexists. split; [reflexivity|]. cbn [lobbies].
  split; [apply (own_replace code _ (lobbies w) room Hown)|].
  rewrite Heq. set (room1 := set_pending _ room).
  assert (Hids : map Ability.playerId (pending room1)
                 = map Ability.playerId (pending room)
                   ++ socket
                      :: (if length (pending room) =? 0 then ["AI"] else [])).
  { subst room1. cbn [pending set_pending]. rewrite map_app. f_equal.
    cbn [map Ability.playerId]. f_equal.
    destruct (length (pending room) =? 0).
    - destruct Htail as (e1 & e2 & p & -> & _). reflexivity.
    - subst tail. reflexivity. }
  assert (Hlen : length (pending room1)
                 = length (pending room)
                   + (if length (pending room) =? 0 then 2 else 1)).
  { rewrite <- (length_map Ability.playerId), Hids, length_app, length_map.
    destruct (length (pending room) =? 0); reflexivity. }
  split.
  { rewrite battle_frame by reflexivity. exact Hids. }
  split.
  { rewrite battle_pending_length. exact Hlen. }
  pose proof (battle_out code reply room1 s1) as Hout. cbv zeta in Hout.
  replace (2 <=? length (pending room1)) with true in Hout; [exact Hout|].
  symmetry. apply Nat.leb_le. rewrite Hlen.
  destruct (length (pending room)); cbn; lia.
Qed.

Lemma lone_player_choice_witness :
  own "I" (lobbies lobby_I)
  = Some (mkRoom [Player.mk "s1" "ann" 0] 0 standard [])
  /\ exists (w' : World) (out : list Emitted) (room' : Room),
       step (playerChoice "s1" "I" ["Fire"; "Ice"] "steam" "" no_key) lobby_I
       = Some (w', out)
       /\ map Ability.playerId (pending room') = ["s1"; "AI"]
       /\ length out = 1.
Proof.
  split; [reflexivity|].
  destruct (lone_player_choice "s1" "I" ["Fire"; "Ice"] "steam" "" no_key
              lobby_I _ eq_refl eq_refl)
    as (w' & out & room' & Hstep & _ & Hids & _ & winner & a & b & rest
        & _ & Hout).
  exists w', out, room'.
  split; [exact Hstep|]. split; [exact Hids|].
  rewrite Hout. reflexivity.
Defined.

(** C4, the claim as stated fails: the second of two players submits and
    disconnects, which leaves his entry and the injected AI entry in
    [pending]; the submission of the player left alone is the third entry,
    no AI opponent is spawned for it and [pending] is not of length 2. *)
Lemma lone_choice_leaves_three_pending :
  exists (w : World) (out0 : list Emitted) (room : Room) (w' : World)
         (out : list Emitted) (room' : Room),
    run [createRoom "s1" "ann"; joinRoom "s2" "bob" "I"; startGame "s1" "I";
         playerChoice "s2" "I" ["Air"; "Metal"] "blades" "" no_key;
         disconnect "s2"]
        (boot [half; RES - 1]%N)
    = Some (w, out0)
    /\ own "I" (lobbies w) = Some room
    /\ length (players room) = 1
    /\ step (playerChoice "s1" "I" ["Fire"; "Ice"] "steam" "" no_key) w
       = Some (w', out)
    /\ own "I" (lobbies w') = Some room'
    /\ map Ability.playerId (pending room') = ["s2"; "AI"; "s1"].
Proof. by_running. Qed.

End Choice.

(** ** Element counts of the submissions *)

Section ElementCounts.

Lemma playerChoice_room_elements (socket code : string)
    (elements : list string) (description imageUrl : string)
    (reply : Oracle) (room : Room) (s : list N) :
  exists (sent : list string) (tail : list (list string)),
    map Ability.elements
        (pending (fst (fst (playerChoice_room socket code elements
                              description imageUrl reply room s))))
    = map Ability.elements (pending room) ++ sent :: tail
    /\ match roundType room with
       | missing => exists e, In e ELEMENTS /\ sent = elements ++ [e]
       | _ => sent = elements
       end
    /\ if lone room then exists e1 e2, tail = [[e1; e2]] else tail = [].
Proof.
  destruct (playerChoice_room_spec socket code elements description imageUrl
                                   reply room s)
    as (sent & tail & s1 & Heq & Hsent & Htail).
  exists sent, (map Ability.elements tail).
  rewrite Heq, battle_frame by reflexivity.
  cbn [pending set_pending]. rewrite map_app. cbn [map Ability.elements].
  split; [reflexivity|]. split; [exact Hsent|].
  destruct (lone room).
  - destruct Htail as (e1 & e2 & p & -> & _). exists e1, e2. reflexivity.
  - subst tail. reflexivity.
Qed.

(** C5, amended.  A round of type [missing] is announced by a [roundStart]
    with exactly one set, of 3 elements.  A submission made in such a round
    is stored with the elements the client sent followed by one element
    drawn by the server (4 elements when 3 were sent); the entries already
    pending keep their elements, and the AI entry pushed for a lone player
    has 2 elements. *)
Theorem missing_round_elements
    (code socket : string) (elements : list string)
    (description imageUrl : string) (reply : Oracle)
    (before room : Room) (s0 s : list N) :
  roundType (fst (fst (startRound_room code before s0))) = missing ->
  roundType room = missing ->
  (exists set : list string,
     snd (fst (startRound_room code before s0))
     = [(ToRoom code,
         roundStart (S (currentRound before)) missing [set] (scores before))]
     /\ length set = 3)
  /\ exists (e : string) (tail : list (list string)),
       In e ELEMENTS
       /\ map Ability.elements
              (pending (fst (fst (playerChoice_room socket code elements
                                    description imageUrl reply room s))))
          = map Ability.elements (pending room) ++ (elements ++ [e]) :: tail
       /\ length (elements ++ [e]) = length elements + 1
       /\ if lone room then exists e1 e2, tail = [[e1; e2]] else tail = [].
Proof.
  intros Hstart Hroom. split.
  - destruct (startRound_room_spec code before s0)
      as (type & sets & Heq & Hall & Hlen).
    rewrite Heq in Hstart |- *. cbn [fst snd roundType] in *. subst type.
    destruct sets as [|set [|set2 sets]]; try discriminate Hlen.
    exists set. split; [reflexivity|].
    apply Forall_inv in Hall. exact Hall.
  - destruct (playerChoice_room_elements socket code elements description
                                         imageUrl reply room s)
      as (sent & tail & Hmap & Hsent & Htail).
    rewrite Hroom in Hsent. destruct Hsent as (e & He & ->).
    exists e, tail. split; [exact He|]. split; [exact Hmap|].
    split; [|exact Htail].
    rewrite length_app. reflexivity.
Qed.

Lemma missing_round_elements_witness :
  roundType (fst (fst (startRound_room "I" missing_lobby []))) = missing
  /\ exists (e : string) (tail : list (list string)),
       map Ability.elements
           (pending (fst (fst (playerChoice_room
                                 "s1" "I" ["Fire"; "Water"; "Earth"] "steam"
                                 "" no_key missing_lobby []))))
       = ["Fire"; "Water"; "Earth"; e] :: tail.
Proof.
  split; [reflexivity|].
  destruct (missing_round_elements
              "I" "s1" ["Fire"; "Water"; "Earth"] "steam" "" no_key
              missing_lobby missing_lobby [] [] eq_refl eq_refl)
    as (_ & e & tail & _ & Hmap & _).
  exists e, tail. exact Hmap.
Defined.

(** C5, the claim as stated fails: in a [missing] round played against the
    AI opponent, the player who sent 3 elements is shown with 4 and the AI
    entry with 2. *)
Lemma missing_round_AI_shows_two :
  exists (w : World) (out0 : list Emitted) (room : Room) (w' : World)
         (round : nat) (winner : string) (a b : Ability.t)
         (sc : list (string * nat)) (nar : string),
    run [createRoom "s1" "ann"; startGame "s1" "I"] (boot [half; 0]%N)
    = Some (w, out0)
    /\ own "I" (lobbies w) = Some room
    /\ roundType room = missing
    /\ step (playerChoice "s1" "I" ["Fire"; "Water"; "Earth"] "steam" ""
                          no_key) w
       = Some (w', [(ToRoom "I", battleResult round winner a b sc nar)])
    /\ length (Ability.elements a) = 4
    /\ length (Ability.elements b) = 2.
Proof. by_running. Qed.

Lemma lone_empty (room : Room) : lone room = true -> pending room = [].
Proof.
  unfold lone. intros H. apply andb_true_iff in H as [_ H].
  apply Nat.eqb_eq in H. destruct (pending room); [reflexivity|discriminate].
Qed.

(** C10, amended.  The entry pushed by [createAIPlayer] has exactly 2
    elements whatever the round type, and no handler adds an element to an
    entry already pending.  In a [missing] round that a lone player opens,
    the battle is between the player's entry, which has one element more
    than the client sent, and the AI entry with its 2 elements: 4 against 2
    when the client sent 3. *)
Theorem AI_entry_two_elements
    (socket code : string) (elements : list string)
    (description imageUrl : string) (reply : Oracle)
    (room any : Room) (s s' : list N) :
  roundType room = missing ->
  lone room = true ->
  (exists ai : Ability.t,
     pending (fst (createAIPlayer any s')) = pending any ++ [ai]
     /\ Ability.playerId ai = "AI"
     /\ length (Ability.elements ai) = 2)
  /\ (exists (sent : list string) (tail : list (list string)),
        map Ability.elements
            (pending (fst (fst (playerChoice_room socket code elements
                                  description imageUrl reply any s'))))
        = map Ability.elements (pending any) ++ sent :: tail
        /\ if lone any then exists e1 e2, tail = [[e1; e2]] else tail = [])
  /\ exists (winner : string) (a b : Ability.t) (sc : list (string * nat))
            (nar : string),
       snd (fst (playerChoice_room socket code elements description imageUrl
                                   reply room s))
       = [(ToRoom code, battleResult (currentRound room) winner a b sc nar)]
       /\ Ability.playerId a = socket
       /\ length (Ability.elements a) = length elements + 1
       /\ Ability.playerId b = "AI"
       /\ length (Ability.elements b) = 2.
Proof.
  intros Hmissing Hlone. split; [|split].
  - destruct (createAIPlayer_spec any s') as (e1 & e2 & p & Heq & _).
    exists (AI_entry e1 e2 p). rewrite Heq. repeat split.
  - destruct (playerChoice_room_elements socket code elements description
                                         imageUrl reply any s')
      as (sent & tail & Hmap & _ & Htail).
    exists sent, tail. split; assumption.
  - destruct (playerChoice_room_spec socket code elements description
                                     imageUrl reply room s)
      as (sent & tail & s1 & Heq & Hsent & Htail).
    rewrite Hmissing in Hsent. destruct Hsent as (e & _ & ->).
    rewrite Hlone in Htail. destruct Htail as (e1 & e2 & p & -> & _).
    rewrite Heq. rewrite (lone_empty room Hlone). cbn [app].
    rewrite battle_eq with (a0 := Ability.mk socket (senderName socket room)
                                     (elements ++ [e]) description imageUrl 0)
                           (b0 := AI_entry e1 e2 p) (rest := [])
      by reflexivity.
    cbn [fst snd currentRound set_pending].
    match goal with
    | |- context [evaluateAbilities reply ?x ?y s1] =>
        destruct (evaluateAbilities_frame reply x y s1) as (pa & pb & Hev)
    end.
    rewrite Hev. cbn [fst snd].
    do 5 eexists. split; [reflexivity|].
    cbn. rewrite length_app. repeat split; reflexivity.
Qed.

Lemma AI_entry_two_elements_witness :
  lone missing_lobby = true
  /\ exists (winner : string) (a b : Ability.t) (sc : list (string * nat))
            (nar : string),
       snd (fst (playerChoice_room "s1" "I" ["Fire"; "Water"; "Earth"]
                                   "steam" "" no_key missing_lobby []))
       = [(ToRoom "I", battleResult 1 winner a b sc nar)]
       /\ length (Ability.elements a) = 4
       /\ length (Ability.elements b) = 2.
Proof.
  split; [reflexivity|].
  destruct (AI_entry_two_elements
              "s1" "I" ["Fire"; "Water"; "Earth"] "steam" "" no_key
              missing_lobby missing_lobby [] [] eq_refl eq_refl)
    as (_ & _ & winner & a & b & sc & nar & Hout & _ & Ha & _ & Hb).
  exists winner, a, b, sc, nar.
  split; [exact Hout|]. split; [exact Ha | exact Hb].
Defined.

(** C10, the claim as stated fails: when the client sends one element (one
    pick for the one set shown, as [public/client.js] does), the player's
    entry and the AI entry of a [missing] round both have 2 elements. *)
Lemma missing_round_equal_counts :
  exists (w : World) (out0 : list Emitted) (room : Room) (w' : World)
         (round : nat) (winner : string) (a b : Ability.t)
         (sc : list (string * nat)) (nar : string),
    run [createRoom "s1" "ann"; startGame "s1" "I"] (boot [half; 0]%N)
    = Some (w, out0)
    /\ own "I" (lobbies w) = Some room
    /\ roundType room = missing
    /\ step (playerChoice "s1" "I" ["Water"] "tide" "" no_key) w
       = Some (w', [(ToRoom "I", battleResult round winner a b sc nar)])
    /\ Ability.playerId b = "AI"
    /\ length (Ability.elements a) = length (Ability.elements b).
Proof. by_running. Qed.

End ElementCounts.

(** ** Facts about the disconnect handler *)

Section Disconnect.

Lemma findIndex_nth (socket : string) (ps : list Player.t) :
  forall idx, findIndex socket ps = Some idx ->
    exists p, nth_error ps idx = Some p /\ Player.id p = socket.
Proof.
  induction ps as [|q ps IH]; cbn; intros idx H.
  - discriminate.
  - destruct (String.eqb_spec (Player.id q) socket) as [Hq|Hq].
    + injection H as <-. exists q. split; [reflexivity | exact Hq].
    + destruct (findIndex socket ps) as [j|]; [|discriminate].
      injection H as <-. apply (IH j eq_refl).
Qed.

(** A socket that is a player of one room only is found in that room. *)
Lemma scan_finds (socket code : string) (l : Lobbies) (room : Room)
    (idx : nat) :
  own code l = Some room ->
  findIndex socket (players room) = Some idx ->
  (forall k r, In (k, r) l -> k <> code ->
               findIndex socket (players r) = None) ->
  scan socket l = Some (code, room, idx).
Proof.
  induction l as [|[k r] l IH]; cbn; intros Hown Hidx Hother.
  - discriminate.
  - destruct (String.eqb_spec k code) as [->|Hne].
    + injection Hown as ->. rewrite Hidx. reflexivity.
    + rewrite (Hother k r (or_introl eq_refl) Hne).
      apply IH; [exact Hown | exact Hidx|].
      intros k' r' Hin. apply Hother. right. exact Hin.
Qed.

Lemma findIndex_in (socket : string) (ps : list Player.t) :
  In socket (map Player.id ps) -> exists idx, findIndex socket ps = Some idx.
Proof.
  induction ps as [|q ps IH]; cbn; intros H.
  - destruct H.
  - destruct (String.eqb_spec (Player.id q) socket) as [Hq|Hq].
    + exists 0. reflexivity.
    + destruct H as [H|H]; [congruence|].
      destruct (IH H) as [idx ->]. exists (S idx). reflexivity.
Qed.

Lemma findIndex_not_in (socket : string) (ps : list Player.t) :
  ~ In socket (map Player.id ps) -> findIndex socket ps = None.
Proof.
  intros H. apply findIndex_absent, Forall_forall.
  intros p Hp Heq. apply H, in_map_iff. exists p. split; assumption.
Qed.

Lemma scan_complete (socket : string) (l : Lobbies) :
  forall k r,
    In (k, r) l -> In socket (map Player.id (players r)) ->
    exists code room idx, scan socket l = Some (code, room, idx).
Proof.
  induction l as [|[k0 r0] l IH]; cbn; intros k r Hin Hpl.
  - destruct Hin.
  - destruct (findIndex socket (players r0)) as [i|] eqn:Ei.
    + exists k0, r0, i. reflexivity.
    + destruct Hin as [Heq|Hin].
      * injection Heq as -> ->.
        destruct (findIndex_in socket (players r) Hpl) as [idx Hidx].
        congruence.
      * apply (IH k r Hin Hpl).
Qed.

Lemma own_in (k : string) (r : Room) (l : Lobbies) :
  wf l -> In (k, r) l -> own k l = Some r.
Proof.
  unfold wf. induction l as [|[k0 r0] l IH]; cbn; intros Hwf Hin.
  - destruct Hin.
  - apply NoDup_cons_iff in Hwf as [Hk Hl].
    destruct Hin as [Heq|Hin].
    + injection Heq as -> ->. rewrite String.eqb_refl. reflexivity.
    + destruct (String.eqb_spec k0 k) as [->|Hne]; [|apply IH; assumption].
      exfalso. apply Hk, in_map_iff. exists (k, r). split; [reflexivity|].
      exact Hin.
Qed.

(** C6.  On disconnect of a socket that is a player of some room, the
    handler settles on one room, the first in key order that has the socket
    among its players (the room itself when the socket is in no other one).
    The first player with that id is removed from it and [playerLeft] is
    broadcast to the room.  A room left without players is deleted; a room
    left with exactly one player gets an AI entry pushed onto [pending]; a
    room left with more players is only shortened.  So the last player
    leaving deletes the room, and one of two leaving leaves a room of one
    player with an AI entry.  No other room changes. *)
Theorem disconnect_reconciles
    (socket k : string) (r : Room) (w : World) :
  wf (lobbies w) ->
  In (k, r) (lobbies w) ->
  In socket (map Player.id (players r)) ->
  exists (code : string) (room : Room) (idx : nat) (leaver : Player.t)
         (w' : World),
    scan socket (lobbies w) = Some (code, room, idx)
    /\ ((forall k' r', In (k', r') (lobbies w) -> k' <> k ->
                       ~ In socket (map Player.id (players r'))) ->
        code = k /\ room = r)
    /\ step (disconnect socket) w = Some (w', [(ToRoom code, playerLeft socket)])
    /\ own code (lobbies w) = Some room
    /\ nth_error (players room) idx = Some leaver
    /\ Player.id leaver = socket
    /\ length (splice1 idx (players room)) = pred (length (players room))
    /\ match length (splice1 idx (players room)) with
       | 0 => own code (lobbies w') = None
       | 1 =>
           exists ai : Ability.t,
             own code (lobbies w')
             = Some (mkRoom (splice1 idx (players room)) (currentRound room)
                            (roundType room) (pending room ++ [ai]))
             /\ Ability.playerId ai = "AI"
       | _ =>
           own code (lobbies w')
           = Some (set_players (splice1 idx (players room)) room)
       end
    /\ forall other : string,
         other <> code -> own other (lobbies w') = own other (lobbies w).
Proof.
  intros Hwf Hin Hpl.
  destruct (scan_complete socket (lobbies w) k r Hin Hpl)
    as (code & room & idx & Hscan).
  destruct (scan_own socket (lobbies w) Hwf code room idx Hscan)
    as [Hown Hidx].
  destruct (findIndex_nth socket (players room) idx Hidx)
    as (leaver & Hnth & Hid).
  assert (Hlt : idx < length (players room)).
  { apply nth_error_Some. rewrite Hnth. discriminate. }
  assert (Hlen : length (splice1 idx (players room))
                 = pred (length (players room)))
    by (apply splice1_length, Hlt).
  assert (Huniq : (forall k' r', In (k', r') (lobbies w) -> k' <> k ->
                     ~ In socket (map Player.id (players r'))) ->
                  code = k /\ room = r).
  { intros Hother.
    destruct (findIndex_in socket (players r) Hpl) as [i Hi].
    assert (Hscan' : scan socket (lobbies w) = Some (k, r, i)).
    { apply scan_finds; [apply own_in; assumption | exact Hi|].
      intros k' r' Hin' Hne. apply findIndex_not_in.
      apply (Hother k' r' Hin' Hne). }
    rewrite Hscan in Hscan'. injection Hscan' as -> -> _.
    split; reflexivity. }
  exists code, room, idx, leaver.
  unfold step, handle, on_disconnect. rewrite Hscan.
  cbn [players set_players].
  destruct (length (splice1 idx (players room))) as [|[|n]] eqn:Hrest;
    cbn [Nat.eqb].
  - eexists. split; [reflexivity|]. split; [exact Huniq|].
    split; [reflexivity|]. cbn [lobbies].
    repeat split; try assumption.
    + apply own_delete, Hwf.
    + intros other Hne. apply own_delete_other, Hne.
  - unfold bind, ret.
    set (room1 := set_players _ room).
    destruct (createAIPlayer_spec room1 (rng w)) as (e1 & e2 & p & Heq & _).
    destruct (createAIPlayer room1 (rng w)) as [r1 s1]; cbn [fst] in Heq.
    subst r1.
    eexists. split; [reflexivity|]. split; [exact Huniq|].
    split; [reflexivity|]. cbn [lobbies].
    repeat split; try assumption.
    + exists (AI_entry e1 e2 p). split; [|reflexivity].
      apply (own_replace code _ (lobbies w) room Hown).
    + intros other Hne. apply own_replace_other, Hne.
  - eexists. split; [reflexivity|]. split; [exact Huniq|].
    split; [reflexivity|]. cbn [lobbies].
    repeat split; try assumption.
    + apply (own_replace code _ (lobbies w) room Hown).
    + intros other Hne. apply own_replace_other, Hne.
Qed.

Lemma disconnect_reconciles_witness :
  wf (lobbies pair_lobby)
  /\ exists (w' : World) (ai : Ability.t),
       step (disconnect "s2") pair_lobby
       = Some (w', [(ToRoom "I", playerLeft "s2")])
       /\ own "I" (lobbies w')
          = Some (mkRoom [Player.mk "s1" "ann" 0] 2 standard [ai])
       /\ Ability.playerId ai = "AI".
Proof.
  assert (Hwf : wf (lobbies pair_lobby)).
  { unfold wf. cbn. repeat constructor. intros []. }
  split; [exact Hwf|].
  destruct (disconnect_reconciles
              "s2" "I"
              (mkRoom [Player.mk "s1" "ann" 0; Player.mk "s2" "bob" 1] 2
                      standard [])
              pair_lobby Hwf (or_introl eq_refl)
              (or_intror (or_introl eq_refl)))
    as (code & room & idx & leaver & w' & Hscan & _ & Hstep & _ & _ & _ & _
        & Hcase & _).
  injection Hscan as <- <- <-.
  cbn in Hcase. destruct Hcase as (ai & Hown & Hai).
  exists w', ai. repeat split; assumption.
Defined.

End Disconnect.

(** ** Room codes that are not registered *)

Section UnknownRoom.

(** Where [lobbies[roomCode]] is [undefined], the handlers behave as the
    guards [if (!room)] read: [joinRoom] answers the sender, the other three
    do nothing. *)
Lemma undefined_roomCode (socket username code : string)
    (elements : list string) (description imageUrl : string)
    (reply : Oracle) (w : World) :
  lobbies_get code (lobbies w) = Undefined ->
  step (joinRoom socket username code) w
  = Some (w, [(ToSocket socket, errorMessage "Room not found")])
  /\ step (startGame socket code) w = Some (w, [])
  /\ step (playerChoice socket code elements description imageUrl reply) w
     = Some (w, [])
  /\ step (requestNextRound socket code) w = Some (w, []).
Proof.
  intros Hget. destruct w as [l s].
  unfold step, handle, on_joinRoom, startRound, on_playerChoice,
    on_requestNextRound.
  cbn [lobbies rng] in *. rewrite Hget. repeat split.
Qed.

(** C9 at a failing input.  No room is registered under ["constructor"], yet
    [lobbies["constructor"]] is the inherited [Object.prototype.constructor]
    and passes the guard [if (!room) return]: [playerChoice] then fails on
    [room.pending.push] and answers the sender with an [errorMessage]
    instead of staying silent, and [startGame] does not return normally. *)
Theorem roomCode_constructor_not_silent :
  own "constructor" (lobbies (boot [])) = None
  /\ step (playerChoice "s1" "constructor" ["Fire"] "steam" "" no_key)
          (boot [])
     = Some (boot [],
             [(ToSocket "s1", errorMessage "Problem submitting choice")])
  /\ step (startGame "s1" "constructor") (boot []) = None.
Proof. repeat split. Qed.

End UnknownRoom.

(** ** Handlers as operations on the registry *)

Section RegistryOps.

Lemma startRound_registry_op (roomCode : string) (l l' : Lobbies)
    (out : list Emitted) (s s' : list N) :
  startRound roomCode l s = (Done l' out, s') -> registry_op l l'.
Proof.
  unfold startRound. intros H.
  destruct (lobbies_get roomCode l) as [room| |] eqn:Eget.
  - unfold bind, ret in H.
    destruct (startRound_room roomCode room s) as [r s1] eqn:Er.
    injection H as <- _ _.
    replace r with (fst (startRound_room roomCode room s))
      by (rewrite Er; reflexivity).
    apply (reg_room l roomCode room _ (get_Own _ _ _ Eget)).
    apply op_start.
  - discriminate.
  - injection H as <- _ _. constructor.
Qed.

Lemma findIndex_lt (socket : string) (ps : list Player.t) (idx : nat) :
  findIndex socket ps = Some idx -> idx < length ps.
Proof.
  intros H. destruct (findIndex_nth socket ps idx H) as (p & Hp & _).
  apply nth_error_Some. rewrite Hp. discriminate.
Qed.

Lemma handle_registry_op (e : Event) (l l' : Lobbies) (out : list Emitted)
    (s s' : list N) :
  wf l -> handle e l s = (Done l' out, s') -> registry_op l l'.
Proof.
  intros Hwf H. destruct e as [so u | so u c | so c | so c els d img reply
                               | so c | so]; cbn [handle] in H.
  - unfold on_createRoom, bind, ret in H.
    destruct (newRoomCode s) as [code s1] eqn:Ecode.
    injection H as <- _ _.
    replace code with (fst (newRoomCode s)) by (rewrite Ecode; reflexivity).
    apply (reg_create l s so u).
  - unfold on_joinRoom in H.
    destruct (lobbies_get c l) as [room| |] eqn:Eget;
      injection H as <- _ _; try constructor.
    apply (reg_room l c room _ (get_Own _ _ _ Eget)). apply op_join.
  - eapply startRound_registry_op, H.
  - unfold on_playerChoice in H.
    destruct (lobbies_get c l) as [room| |] eqn:Eget;
      try (injection H as <- _ _; constructor).
    unfold bind, ret in H.
    destruct (playerChoice_room so c els d img reply room s) as [r s1] eqn:Er.
    injection H as <- _ _.
    replace r with (fst (playerChoice_room so c els d img reply room s))
      by (rewrite Er; reflexivity).
    apply (reg_room l c room _ (get_Own _ _ _ Eget)). apply op_choice.
  - unfold on_requestNextRound in H.
    destruct (lobbies_get c l) as [room| |] eqn:Eget;
      try discriminate; try (injection H as <- _ _; constructor).
    destruct (5 <=? currentRound room).
    + injection H as <- _ _. constructor.
    + eapply startRound_registry_op, H.
  - unfold on_disconnect in H.
    destruct (scan so l) as [[[c room] idx]|] eqn:Escan.
    + destruct (scan_own so l Hwf c room idx Escan) as [Hown Hidx].
      apply findIndex_lt in Hidx.
      cbn [players set_players] in H.
      destruct (length (splice1 idx (players room))) as [|[|n]] eqn:Hrest;
        cbn [Nat.eqb] in H.
      * injection H as <- _ _. constructor.
      * unfold bind, ret in H.
        destruct (createAIPlayer
                    (set_players (splice1 idx (players room)) room) s)
          as [r s1] eqn:Er.
        injection H as <- _ _.
        replace r with
          (fst (createAIPlayer
                  (set_players (splice1 idx (players room)) room) s))
          by (rewrite Er; reflexivity).
        apply (reg_room l c room _ Hown).
        apply op_leave_ai; assumption.
      * injection H as <- _ _.
        apply (reg_room l c room _ Hown).
        apply op_leave; [exact Hidx | rewrite Hrest; lia].
    + injection H as <- _ _. constructor.
Qed.

Lemma own_In (code : string) (l : Lobbies) (room : Room) :
  own code l = Some room -> In (code, room) l.
Proof.
  induction l as [|[k r] l IH]; cbn; intros H.
  - discriminate.
  - destruct (String.eqb_spec k code) as [->|Hne].
    + injection H as ->. left. reflexivity.
    + right. apply IH, H.
Qed.

Lemma Forall_replace (Q : string * Room -> Prop) (code : string)
    (room' : Room) (l : Lobbies) :
  Forall Q l -> Q (code, room') -> Forall Q (replace code room' l).
Proof.
  intros Hall Hnew. induction Hall as [|[k r] l Hk Hl IH]; cbn.
  - constructor.
  - destruct (String.eqb_spec k code) as [->|Hne].
    + constructor; assumption.
    + constructor; assumption.
Qed.

Lemma Forall_delete (Q : string * Room -> Prop) (code : string)
    (l : Lobbies) :
  Forall Q l -> Forall Q (delete code l).
Proof.
  intros Hall. induction Hall as [|[k r] l Hk Hl IH]; cbn.
  - constructor.
  - destruct (String.eqb k code); [exact Hl | constructor; assumption].
Qed.

Lemma Forall_assign (Q : string * Room -> Prop) (code : string)
    (room : Room) (l : Lobbies) :
  Forall Q l -> Q (code, room) -> Forall Q (assign code room l).
Proof.
  intros Hall Hnew. destruct (own code l) as [r|] eqn:Eown.
  - unfold assign. rewrite Eown. apply Forall_replace; assumption.
  - rewrite Forall_forall. intros x Hx.
    eapply Permutation_in in Hx; [|apply assign_perm, Eown].
    destruct Hx as [<-|Hx]; [exact Hnew|].
    rewrite Forall_forall in Hall. apply Hall, Hx.
Qed.

(** A property of the entries that every room operation and every
    [createRoom] keeps is kept by every handler. *)
Lemma registry_op_Forall (Q : string * Room -> Prop) (l l' : Lobbies) :
  (forall k r r', Q (k, r) -> room_op r r' -> Q (k, r')) ->
  (forall s socket username,
      Q (fst (newRoomCode s), fresh_room socket username)) ->
  registry_op l l' -> Forall Q l -> Forall Q l'.
Proof.
  intros Hop Hnew [|code room room' Hown Hroom|code|s so u] Hall.
  - exact Hall.
  - apply Forall_replace; [exact Hall|].
    apply (Hop code room room'); [|exact Hroom].
    rewrite Forall_forall in Hall. apply Hall, own_In, Hown.
  - apply Forall_delete, Hall.
  - apply Forall_assign; [exact Hall | apply Hnew].
Qed.

Lemma run_Forall (Q : string * Room -> Prop) :
  (forall k r r', Q (k, r) -> room_op r r' -> Q (k, r')) ->
  (forall s socket username,
      Q (fst (newRoomCode s), fresh_room socket username)) ->
  forall (es : list Event) (w w' : World) (out : list Emitted),
    wf (lobbies w) -> Forall Q (lobbies w) ->
    run es w = Some (w', out) -> Forall Q (lobbies w').
Proof.
  intros Hop Hnew.
  induction es as [|e es IH]; intros w w' out Hwf Hall Hrun.
  - injection Hrun as <- _. exact Hall.
  - cbn [run] in Hrun.
    destruct (step e w) as [[w1 out1]|] eqn:Hstep; [|discriminate].
    destruct (run es w1) as [[w2 out2]|] eqn:Hrest; [|discriminate].
    injection Hrun as <- _.
    apply (IH w1 w2 out2); [eapply step_wf; eassumption | | exact Hrest].
    apply (registry_op_Forall Q (lobbies w) (lobbies w1) Hop Hnew);
      [|exact Hall].
    eapply handle_registry_op; [exact Hwf | apply step_inv, Hstep].
Qed.

End RegistryOps.

(** ** Invariants of the worlds the server reaches *)

Section Reachable.

Lemma startRound_room_players (roomCode : string) (room : Room)
    (s : list N) :
  players (fst (fst (startRound_room roomCode room s))) = players room
  /\ pending (fst (fst (startRound_room roomCode room s))) = [].
Proof.
  destruct (startRound_room_spec roomCode room s) as (t & sets & Heq & _).
  rewrite Heq. split; reflexivity.
Qed.

Lemma battle_players (code : string) (reply : Oracle) (room : Room)
    (s : list N) :
  players (fst (fst (battle code reply room s))) = players room
  \/ exists winner,
       players (fst (fst (battle code reply room s)))
       = score_up winner (players room).
Proof.
  destruct (pending room) as [|a0 [|b0 rest]] eqn:Hp.
  - rewrite battle_short by (rewrite Hp; cbn; lia). left. reflexivity.
  - rewrite battle_short by (rewrite Hp; cbn; lia). left. reflexivity.
  - rewrite (battle_eq code reply room a0 b0 rest s Hp). cbn [fst players].
    destruct (String.eqb _ "tie"); [left; reflexivity|].
    right. eexists. reflexivity.
Qed.

Lemma playerChoice_room_players (socket code : string)
    (elements : list string) (description imageUrl : string)
    (reply : Oracle) (room : Room) (s : list N) :
  let room' := fst (fst (playerChoice_room socket code elements description
                                           imageUrl reply room s)) in
  players room' = players room
  \/ exists winner, players room' = score_up winner (players room).
Proof.
  cbv zeta.
  destruct (playerChoice_room_spec socket code elements description imageUrl
                                   reply room s)
    as (sent & tail & s1 & Heq & _).
  rewrite Heq. set (room1 := set_pending _ room).
  apply (battle_players code reply room1 s1).
Qed.

Lemma createAIPlayer_players (room : Room) (s : list N) :
  players (fst (createAIPlayer room s)) = players room.
Proof.
  destruct (createAIPlayer_spec room s) as (e1 & e2 & p & Heq & _).
  rewrite Heq. reflexivity.
Qed.

Lemma room_op_players_length (room room' : Room) :
  room_op room room' ->
  1 <= length (players room) -> 1 <= length (players room').
Proof.
  intros [so u|c s|so c els d img reply s|idx Hidx Hrest|idx s Hidx Hrest] H.
  - cbn. rewrite length_app. lia.
  - destruct (startRound_room_players c room s) as [-> _]. exact H.
  - destruct (playerChoice_room_players so c els d img reply room s)
      as [Heq|[winner Heq]]; cbv zeta in Heq; rewrite Heq.
    + exact H.
    + rewrite score_up_length. exact H.
  - cbn. lia.
  - rewrite createAIPlayer_players. cbn. lia.
Qed.

(** X5.  In every world the server reaches, a registered room has at least
    one player: [createRoom] registers it with its creator, [joinRoom] adds
    to it, and the disconnect handler deletes it with its last player. *)
Theorem rooms_never_empty
    (es : list Event) (s : list N) (w : World) (out : list Emitted)
    (code : string) (room : Room) :
  run es (boot s) = Some (w, out) ->
  own code (lobbies w) = Some room ->
  1 <= length (players room).
Proof.
  intros Hrun Hown.
  assert (Hall : Forall (fun kr => 1 <= length (players (snd kr)))
                        (lobbies w)).
  { apply (run_Forall (fun kr => 1 <= length (players (snd kr))))
      with (es := es) (w := boot s) (out := out).
    - intros k r r' Hr Hop. cbn [snd] in *.
      apply (room_op_players_length r r' Hop Hr).
    - intros s0 so u. cbn. lia.
    - unfold wf. cbn. constructor.
    - constructor.
    - exact Hrun. }
  rewrite Forall_forall in Hall.
  apply (Hall (code, room)), own_In, Hown.
Qed.

Lemma rooms_never_empty_witness :
  exists (w : World) (out : list Emitted) (room : Room),
    run [createRoom "s1" "ann"; joinRoom "s2" "bob" "I"; disconnect "s1"]
        (boot [half])
    = Some (w, out)
    /\ own "I" (lobbies w) = Some room
    /\ 1 <= length (players room).
Proof.
  destruct (run [createRoom "s1" "ann"; joinRoom "s2" "bob" "I";
                 disconnect "s1"] (boot [half]))
    as [[w out]|] eqn:Hrun; [|discriminate Hrun].
  destruct (own "I" (lobbies w)) as [room|] eqn:Hown.
  - exists w, out, room. split; [reflexivity|]. split; [exact Hown|].
    exact (rooms_never_empty _ _ _ _ _ _ Hrun Hown).
  - exfalso. revert Hown. injection Hrun as <- _. discriminate.
Defined.

Lemma evaluateAbilities_bounded (reply : Oracle) (a b : Ability.t)
    (s : list N) :
  exists pa pb : nat,
    fst (evaluateAbilities reply a b s) = (set_power pa a, set_power pb b)
    /\ pa <= 101 /\ pb <= 101.
Proof.
  unfold evaluateAbilities.
  pose proof (random_below_101 s) as Ha.
  destruct reply as [| |content]; unfold bind, ret;
    destruct (random_below 101 s) as [pa s1]; cbn [fst] in Ha;
    pose proof (random_below_101 s1) as Hb;
    destruct (random_below 101 s1) as [pb s2]; cbn [fst] in Hb |- *;
    try (exists pa, pb; repeat split; lia).
  destruct (option_map trim content) as [t|]; cbn [answer_is];
    [|exists pa, pb; repeat split; lia].
  destruct (String.eqb_spec t "A") as [->|HA].
  - cbn [String.eqb Ascii.eqb Bool.eqb set_power Ability.power].
    exists (pb + 1), pb. repeat split; lia.
  - destruct (String.eqb t "B"); cbn [set_power Ability.power].
    + exists pa, (pa + 1). repeat split; lia.
    + exists pa, pb. repeat split; lia.
Qed.

Lemma battle_powers (code : string) (reply : Oracle) (room : Room)
    (s : list N) :
  powers_bounded room ->
  powers_bounded (fst (fst (battle code reply room s))).
Proof.
  unfold powers_bounded. intros H.
  destruct (pending room) as [|a0 [|b0 rest]] eqn:Hp.
  - rewrite battle_short by (rewrite Hp; cbn; lia). cbn [fst].
    rewrite Hp. exact H.
  - rewrite battle_short by (rewrite Hp; cbn; lia). cbn [fst].
    rewrite Hp. exact H.
  - rewrite (battle_eq code reply room a0 b0 rest s Hp). cbn [fst pending].
    destruct (evaluateAbilities_bounded reply a0 b0 s)
      as (pa & pb & Heq & Hpa & Hpb).
    rewrite Heq. cbn [fst snd].
    apply Forall_inv_tail in H. apply Forall_inv_tail in H.
    constructor; [exact Hpa|]. constructor; [exact Hpb | exact H].
Qed.

Lemma room_op_powers (room room' : Room) :
  room_op room room' -> powers_bounded room -> powers_bounded room'.
Proof.
  intros [so u|c s|so c els d img reply s|idx Hidx Hrest|idx s Hidx Hrest] H.
  - exact H.
  - unfold powers_bounded.
    destruct (startRound_room_players c room s) as [_ ->]. constructor.
  - destruct (playerChoice_room_spec so c els d img reply room s)
      as (sent & tail & s1 & Heq & _ & Htail).
    rewrite Heq. apply battle_powers.
    unfold powers_bounded in *. cbn [pending set_pending].
    apply Forall_app. split; [exact H|].
    constructor; [cbn; lia|].
    destruct (lone room).
    + destruct Htail as (e1 & e2 & p & -> & Hp).
      constructor; [cbn; lia | constructor].
    + subst tail. constructor.
  - exact H.
  - destruct (createAIPlayer_spec (set_players (splice1 idx (players room))
                                               room) s)
      as (e1 & e2 & p & Heq & _ & _ & Hp).
    rewrite Heq. unfold powers_bounded in *. cbn [pending set_pending].
    apply Forall_app. split; [exact H|].
    constructor; [cbn; lia | constructor].
Qed.

(** X6.  In every world the server reaches, the power of every pending
    entry is an integer of [0,101]: 0 as submitted, at most 100 for an AI
    entry and after a fallback evaluation, at most 101 for the side the
    arbitration names. *)
Theorem pending_powers_bounded
    (es : list Event) (s : list N) (w : World) (out : list Emitted)
    (code : string) (room : Room) :
  run es (boot s) = Some (w, out) ->
  own code (lobbies w) = Some room ->
  Forall (fun a => Ability.power a <= 101) (pending room).
Proof.
  intros Hrun Hown.
  assert (Hall : Forall (fun kr => powers_bounded (snd kr)) (lobbies w)).
  { apply (run_Forall (fun kr => powers_bounded (snd kr)))
      with (es := es) (w := boot s) (out := out).
    - intros k r r' Hr Hop. cbn [snd] in *.
      apply (room_op_powers r r' Hop Hr).
    - intros s0 so u. constructor.
    - unfold wf. cbn. constructor.
    - constructor.
    - exact Hrun. }
  rewrite Forall_forall in Hall.
  apply (Hall (code, room)), own_In, Hown.
Qed.

Lemma pending_powers_bounded_witness :
  exists (w : World) (out : list Emitted) (room : Room),
    run [createRoom "s1" "ann"; startGame "s1" "I";
         playerChoice "s1" "I" ["Fire"; "Ice"] "steam" ""
                      (answered (Some "A"))]
        (boot [half; RES - 1; 0; 0; 0; 0; 0; 0; 0; 0; 0; 0; RES - 1]%N)
    = Some (w, out)
    /\ own "I" (lobbies w) = Some room
    /\ Forall (fun a => Ability.power a <= 101) (pending room).
Proof.
  match goal with
  | |- exists w out room, ?r = _ /\ _ =>
      destruct r as [[w out]|] eqn:Hrun; [|discriminate Hrun]
  end.
  destruct (own "I" (lobbies w)) as [room|] eqn:Hown.
  - exists w, out, room. split; [reflexivity|]. split; [exact Hown|].
    exact (pending_powers_bounded _ _ _ _ _ _ Hrun Hown).
  - exfalso. revert Hown. injection Hrun as <- _. discriminate.
Defined.

End Reachable.

(** ** One step on the room an event is about *)

Section Steps.

Lemma step_joinRoom_own (socket username code : string) (w : World)
    (room : Room) :
  own code (lobbies w) = Some room ->
  step (joinRoom socket username code) w
  = Some (mkWorld
            (replace code
               (set_players (players room ++ [Player.mk socket username 0])
                            room)
               (lobbies w))
            (rng w),
          [(ToRoom code,
            roomJoined (players room ++ [Player.mk socket username 0]))]).
Proof.
  intros Hown. unfold step, handle, on_joinRoom.
  rewrite (own_get code (lobbies w) room Hown). reflexivity.
Qed.

Lemma step_startGame_own (socket code : string) (w : World) (room : Room) :
  own code (lobbies w) = Some room ->
  step (startGame socket code) w
  = Some (mkWorld (replace code
                     (fst (fst (startRound_room code room (rng w))))
                     (lobbies w))
                  (snd (startRound_room code room (rng w))),
          snd (fst (startRound_room code room (rng w)))).
Proof.
  intros Hown. unfold step, handle, startRound.
  rewrite (own_get code (lobbies w) room Hown). unfold bind, ret.
  destruct (startRound_room code room (rng w)) as [[r o] s1]. reflexivity.
Qed.

(** The outcome of [playerChoice] on a registered room: either no battle,
    or one [battleResult] whose winner is read off the first two entries and
    is given a point unless it is ["tie"]. *)
Lemma playerChoice_room_outcome (socket code : string)
    (elements : list string) (description imageUrl : string)
    (reply : Oracle) (room : Room) (s : list N) :
  let r := fst (playerChoice_room socket code elements description imageUrl
                                  reply room s) in
  (snd r = [] /\ players (fst r) = players room)
  \/ exists (a b : Ability.t) (rest : list Ability.t),
       pending (fst r) = a :: b :: rest
       /\ snd r = [(ToRoom code,
                    battleResult (currentRound room) (winnerOf a b) a b
                                 (scores (fst r)) (narrative a b))]
       /\ players (fst r)
          = if String.eqb (winnerOf a b) "tie" then players room
            else score_up (winnerOf a b) (players room).
Proof.
  cbv zeta.
  destruct (playerChoice_room_spec socket code elements description imageUrl
                                   reply room s)
    as (sent & tail & s1 & Heq & _).
  rewrite Heq. set (room1 := set_pending _ room).
  destruct (pending room1) as [|a0 [|b0 rest]] eqn:Hp.
  - rewrite battle_short by (rewrite Hp; cbn; lia). left.
    split; reflexivity.
  - rewrite battle_short by (rewrite Hp; cbn; lia). left.
    split; reflexivity.
  - rewrite (battle_eq code reply room1 a0 b0 rest s1 Hp). right.
    cbn [fst snd pending players currentRound].
    eexists; eexists; eexists. repeat split.
Qed.

Lemma startRound_other (c code : string) (l l' : Lobbies)
    (out : list Emitted) (s s' : list N) :
  c <> code ->
  startRound c l s = (Done l' out, s') -> own code l' = own code l.
Proof.
  unfold startRound. intros Hne H.
  destruct (lobbies_get c l) as [room| |].
  - unfold bind, ret in H.
    destruct (startRound_room c room s) as [r s1].
    injection H as <- _ _. apply own_replace_other. congruence.
  - discriminate.
  - injection H as <- _ _. reflexivity.
Qed.

(** A handler leaves alone every room but the one the event is about. *)
Lemma step_other (e : Event) (w w' : World) (out : list Emitted)
    (code : string) :
  wf (lobbies w) ->
  step e w = Some (w', out) ->
  target e w <> Some code ->
  own code (lobbies w') = own code (lobbies w).
Proof.
  intros Hwf Hstep Hne.
  destruct e as [so u | so u c | so c | so c els d img reply | so c | so];
    cbn [target] in Hne.
  - rewrite step_createRoom in Hstep. injection Hstep as <- _.
    cbn [lobbies]. apply own_assign_other; [exact Hwf | congruence].
  - apply step_inv in Hstep. cbn [handle] in Hstep.
    unfold on_joinRoom in Hstep.
    destruct (lobbies_get c (lobbies w)); injection Hstep as <- _ _;
      try reflexivity.
    apply own_replace_other. congruence.
  - apply step_inv in Hstep. cbn [handle] in Hstep.
    eapply startRound_other; [|exact Hstep]. congruence.
  - apply step_inv in Hstep. cbn [handle] in Hstep.
    unfold on_playerChoice in Hstep.
    destruct (lobbies_get c (lobbies w));
      try (injection Hstep as <- _ _; reflexivity).
    unfold bind, ret in Hstep.
    destruct (playerChoice_room so c els d img reply room (rng w))
      as [r s1].
    injection Hstep as <- _ _. apply own_replace_other. congruence.
  - apply step_inv in Hstep. cbn [handle] in Hstep.
    unfold on_requestNextRound in Hstep.
    destruct (lobbies_get c (lobbies w)) as [room| |]; try discriminate.
    + destruct (5 <=? currentRound room).
      * injection Hstep as <- _ _. apply own_delete_other. congruence.
      * eapply startRound_other; [|exact Hstep]. congruence.
    + injection Hstep as <- _ _. reflexivity.
  - apply step_inv in Hstep. cbn [handle] in Hstep.
    unfold on_disconnect in Hstep.
    destruct (scan so (lobbies w)) as [[[c room] idx]|].
    + cbn [players set_players] in Hstep.
      destruct (length (splice1 idx (players room)) =? 0).
      * injection Hstep as <- _ _. apply own_delete_other. congruence.
      * destruct (length (splice1 idx (players room)) =? 1).
        -- unfold bind, ret in Hstep.
           destruct (createAIPlayer _ (rng w)) as [r s1].
           injection Hstep as <- _ _. apply own_replace_other. congruence.
        -- injection Hstep as <- _ _. apply own_replace_other. congruence.
    + injection Hstep as <- _ _. reflexivity.
Qed.

End Steps.

(** ** Creating and joining rooms *)

Section Lifecycle.

Lemma digit36_table :
  forallb (fun d => code_char (digit36 (N.of_nat d))) (seq 0 36) = true.
Proof. vm_compute. reflexivity. Qed.

Lemma digit36_char (d : N) : (d < 36)%N -> code_char (digit36 d) = true.
Proof.
  intros Hd. pose proof digit36_table as Htab.
  rewrite forallb_forall in Htab.
  rewrite <- (N2Nat.id d). apply Htab, in_seq. lia.
Qed.

Lemma frac36_shape (n : nat) :
  forall u : N,
    (u < RES)%N ->
    String.length (frac36 n u) <= n
    /\ forallb code_char (list_ascii_of_string (frac36 n u)) = true.
Proof.
  induction n as [|n IH]; intros u Hu; cbn [frac36].
  - split; [apply Nat.le_refl | reflexivity].
  - destruct (u =? 0)%N.
    + split; [cbn; lia | reflexivity].
    + assert (Hrem : (u * 36 mod RES < RES)%N)
        by (apply N.mod_lt; discriminate).
      destruct (IH _ Hrem) as [Hlen Hchars].
      cbn [String.length list_ascii_of_string forallb].
      split; [lia|].
      rewrite Hchars, andb_true_r. apply digit36_char.
      apply N.Div0.div_lt_upper_bound.
      revert Hu. generalize RES. intros R Hu. nia.
Qed.

Lemma newRoomCode_shape (s : list N) : code_shape (fst (newRoomCode s)).
Proof.
  unfold newRoomCode, bind, ret.
  pose proof (Math_random_lt s) as Hu.
  destruct (Math_random s) as [u s1]; cbn [fst] in *.
  apply frac36_shape, Hu.
Qed.

Lemma short_not_inherited (code : string) :
  String.length code <= 4 -> ~ In code Object_prototype.
Proof.
  intros Hlen Hin. unfold Object_prototype in Hin. cbn [In] in Hin.
  repeat (destruct Hin as [<-|Hin]; [cbn in Hlen; lia|]).
  exact Hin.
Qed.

(** X1.  [createRoom] always succeeds: it answers the sender alone with
    [roomCreated] and the code it drew, and registers under that code a room
    at round 0 of type [standard], with no pending entry and the creator as
    its only player, with score 0.  A room already registered under the
    same code is replaced; every other room is left as it was. *)
Theorem createRoom_registers (socket username : string) (w : World) :
  wf (lobbies w) ->
  exists (code : string) (w' : World),
    step (createRoom socket username) w
    = Some (w', [(ToSocket socket, roomCreated code)])
    /\ code = fst (newRoomCode (rng w))
    /\ own code (lobbies w')
       = Some (mkRoom [Player.mk socket username 0] 0 standard [])
    /\ (forall other : string,
          other <> code -> own other (lobbies w') = own other (lobbies w))
    /\ wf (lobbies w').
Proof.
  intros Hwf. rewrite step_createRoom.
  eexists; eexists. split; [reflexivity|]. split; [reflexivity|].
  cbn [lobbies]. split; [apply own_assign, Hwf|].
  split; [|apply assign_wf, Hwf].
  intros other Hne. apply own_assign_other; assumption.
Qed.

Lemma createRoom_registers_witness :
  wf (lobbies lobby_I)
  /\ exists w' : World,
       step (createRoom "s9" "zoe") (mkWorld (lobbies lobby_I) [half])
       = Some (w', [(ToSocket "s9", roomCreated "I")])
       /\ own "I" (lobbies w')
          = Some (mkRoom [Player.mk "s9" "zoe" 0] 0 standard []).
Proof.
  assert (Hwf : wf (lobbies lobby_I)).
  { unfold wf. cbn. repeat constructor. intros []. }
  split; [exact Hwf|].
  destruct (createRoom_registers "s9" "zoe"
              (mkWorld (lobbies lobby_I) [half]) Hwf)
    as (code & w' & Hstep & -> & Hown & _).
  exists w'. split; [exact Hstep | exact Hown].
Defined.

(** X2.  In every world the server reaches, a room code has at most four
    characters, each a digit or an upper-case letter.  Hence no registered
    room sits under a property name of [Object.prototype], and looking a
    registered code up yields its room. *)
Theorem room_codes_shape
    (es : list Event) (s : list N) (w : World) (out : list Emitted)
    (code : string) (room : Room) :
  run es (boot s) = Some (w, out) ->
  own code (lobbies w) = Some room ->
  String.length code <= 4
  /\ forallb code_char (list_ascii_of_string code) = true
  /\ ~ In code Object_prototype
  /\ lobbies_get code (lobbies w) = Own room.
Proof.
  intros Hrun Hown.
  assert (Hall : Forall (fun kr => code_shape (fst kr)) (lobbies w)).
  { apply (run_Forall (fun kr => code_shape (fst kr)))
      with (es := es) (w := boot s) (out := out).
    - intros k r r' Hr _. exact Hr.
    - intros s0 so u. apply newRoomCode_shape.
    - unfold wf. cbn. constructor.
    - constructor.
    - exact Hrun. }
  rewrite Forall_forall in Hall.
  destruct (Hall (code, room) (own_In _ _ _ Hown)) as [Hlen Hchars].
  cbn [fst] in *.
  split; [exact Hlen|]. split; [exact Hchars|].
  split; [apply short_not_inherited, Hlen | apply own_get, Hown].
Qed.

Lemma room_codes_shape_witness :
  exists (w : World) (out : list Emitted) (room : Room),
    run [createRoom "s1" "ann"; createRoom "s2" "bob"]
        (boot [123456789012345; 2 ^ 53 - 1]%N)
    = Some (w, out)
    /\ own "ZZZZ" (lobbies w) = Some room
    /\ ~ In "ZZZZ" Object_prototype.
Proof.
  match goal with
  | |- exists w out room, ?r = _ /\ _ =>
      destruct r as [[w out]|] eqn:Hrun; [|discriminate Hrun]
  end.
  destruct (own "ZZZZ" (lobbies w)) as [room|] eqn:Hown.
  - exists w, out, room. split; [reflexivity|]. split; [exact Hown|].
    exact (proj1 (proj2 (proj2 (room_codes_shape _ _ _ _ _ _ Hrun Hown)))).
  - exfalso. revert Hown. injection Hrun as <- _. discriminate.
Defined.

(** X3.  A room can be joined with the code [createRoom] answered: the
    [joinRoom] that follows is never refused, it broadcasts [roomJoined] to
    the room with the creator first and the newcomer second, both at score
    0, and leaves the room at round 0 with no pending entry. *)
Theorem create_then_join (s1 u1 s2 u2 : string) (w : World) :
  wf (lobbies w) ->
  exists (code : string) (w1 w2 : World),
    step (createRoom s1 u1) w = Some (w1, [(ToSocket s1, roomCreated code)])
    /\ step (joinRoom s2 u2 code) w1
       = Some (w2,
               [(ToRoom code,
                 roomJoined [Player.mk s1 u1 0; Player.mk s2 u2 0])])
    /\ own code (lobbies w2)
       = Some (mkRoom [Player.mk s1 u1 0; Player.mk s2 u2 0] 0 standard []).
Proof.
  intros Hwf. rewrite step_createRoom.
  eexists; eexists; eexists. split; [reflexivity|].
  set (code := fst (newRoomCode (rng w))).
  set (w1 := mkWorld _ _).
  assert (Hown : own code (lobbies w1) = Some (fresh_room s1 u1))
    by (apply own_assign, Hwf).
  rewrite (step_joinRoom_own s2 u2 code w1 _ Hown).
  split; [reflexivity|]. cbn [lobbies].
  apply (own_replace code _ (lobbies w1) _ Hown).
Qed.

Lemma create_then_join_witness :
  wf (lobbies (boot [half]))
  /\ exists w1 w2 : World,
       step (createRoom "s1" "ann") (boot [half])
       = Some (w1, [(ToSocket "s1", roomCreated "I")])
       /\ step (joinRoom "s2" "bob" "I") w1
          = Some (w2,
                  [(ToRoom "I",
                    roomJoined [Player.mk "s1" "ann" 0;
                                Player.mk "s2" "bob" 0])]).
Proof.
  assert (Hwf : wf (lobbies (boot [half])))
    by (unfold wf; cbn; constructor).
  split; [exact Hwf|].
  destruct (create_then_join "s1" "ann" "s2" "bob" (boot [half]) Hwf)
    as (code & w1 & w2 & Hcreate & Hjoin & _).
  assert (Hcode : code = "I").
  { rewrite step_createRoom in Hcreate.
    injection Hcreate as _ Hc. symmetry. exact Hc. }
  subst code. exists w1, w2. split; assumption.
Defined.

End Lifecycle.

(** ** Starting rounds and playing a game through *)

Section Game.

Lemma randomElements_triple (s : list N) : triple (fst (randomElements 3 s)).
Proof.
  unfold randomElements, triple.
  destruct (draw 3 ELEMENTS s) as [l s1] eqn:Erun.
  destruct (draw_spec _ _ _ _ _ Erun ELEMENTS_NoDup) as (Hlen & Hnd & Hin & _).
  repeat split; assumption.
Qed.

Lemma startRound_room_sets (roomCode : string) (room : Room) (s : list N) :
  exists (type : RoundType) (sets : list (list string)),
    fst (startRound_room roomCode room s)
    = (mkRoom (players room) (S (currentRound room)) type [],
       [(ToRoom roomCode,
         roundStart (S (currentRound room)) type sets (scores room))])
    /\ Forall triple sets
    /\ length sets = match type with
                     | missing => 1
                     | standard => 2
                     | evolution => 3
                     end.
Proof.
  unfold startRound_room, bind, ret.
  destruct (Math_random s) as [rand s0].
  pose proof (randomElements_triple s0) as H1.
  destruct (randomElements 3 s0) as [set1 s1]; cbn [fst] in H1.
  pose proof (randomElements_triple s1) as H2.
  destruct (randomElements 3 s1) as [set2 s2]; cbn [fst] in H2.
  destruct (rand * 100 <? 33 * RES)%N.
  - pose proof (randomElements_triple s2) as H3.
    destruct (randomElements 3 s2) as [m1 s3]; cbn [fst] in H3.
    exists missing, [m1]. cbn [fst snd].
    split; [reflexivity|]. split; [|reflexivity].
    constructor; [exact H3 | constructor].
  - destruct (rand * 100 <? 66 * RES)%N.
    + pose proof (randomElements_triple s2) as H3.
      destruct (randomElements 3 s2) as [e1 s3]; cbn [fst] in H3.
      pose proof (randomElements_triple s3) as H4.
      destruct (randomElements 3 s3) as [e2 s4]; cbn [fst] in H4.
      pose proof (randomElements_triple s4) as H5.
      destruct (randomElements 3 s4) as [e3 s5]; cbn [fst] in H5.
      exists evolution, [e1; e2; e3]. cbn [fst snd].
      split; [reflexivity|]. split; [|reflexivity].
      constructor; [exact H3|]. constructor; [exact H4|].
      constructor; [exact H5 | constructor].
    + exists standard, [set1; set2]. cbn [fst snd].
      split; [reflexivity|]. split; [|reflexivity].
      constructor; [exact H1|]. constructor; [exact H2 | constructor].
Qed.

(** X4.  [startGame] on a registered room starts its next round: the round
    number goes up by one, [pending] is emptied, the players and their scores
    are kept, and one [roundStart] goes to the room with that number, the
    round type now stored in the room, and the scores.  It carries two sets
    in a [standard] round, one in a [missing] round and three in an
    [evolution] round, each of three distinct elements of the catalog. *)
Theorem startGame_announces (socket code : string) (w : World)
    (room : Room) :
  own code (lobbies w) = Some room ->
  exists (type : RoundType) (sets : list (list string)) (w' : World),
    step (startGame socket code) w
    = Some (w',
            [(ToRoom code,
              roundStart (S (currentRound room)) type sets (scores room))])
    /\ own code (lobbies w')
       = Some (mkRoom (players room) (S (currentRound room)) type [])
    /\ length sets = match type with
                     | missing => 1
                     | standard => 2
                     | evolution => 3
                     end
    /\ Forall triple sets.
Proof.
  intros Hown. rewrite (step_startGame_own socket code w room Hown).
  destruct (startRound_room_sets code room (rng w))
    as (type & sets & Heq & Hall & Hlen).
  destruct (startRound_room code room (rng w)) as [[r o] s1].
  cbn [fst snd] in *. injection Heq as -> ->.
  exists type, sets. eexists. split; [reflexivity|]. cbn [lobbies].
  split; [apply (own_replace code _ (lobbies w) room Hown)|].
  split; assumption.
Qed.

Lemma startGame_announces_witness :
  exists (type : RoundType) (sets : list (list string)) (w' : World),
    step (startGame "s1" "I") (mkWorld (lobbies lobby_I) [half; 1; 2; 3]%N)
    = Some (w', [(ToRoom "I", roundStart 1 type sets [("ann", 0)])])
    /\ Forall triple sets.
Proof.
  destruct (startGame_announces
              "s1" "I" (mkWorld (lobbies lobby_I) [half; 1; 2; 3]%N)
              _ eq_refl)
    as (type & sets & w' & Hstep & _ & _ & Hall).
  exists type, sets, w'. split; [exact Hstep | exact Hall].
Defined.

Lemma next_rounds (socket code : string) (k : nat) :
  forall (w : World) (room : Room),
    own code (lobbies w) = Some room ->
    currentRound room + k <= 5 ->
    exists (w1 : World) (out1 : list Emitted) (room1 : Room),
      run (repeat (requestNextRound socket code) k) w = Some (w1, out1)
      /\ own code (lobbies w1) = Some room1
      /\ currentRound room1 = currentRound room + k
      /\ players room1 = players room
      /\ length out1 = k
      /\ forallb is_roundStart out1 = true.
Proof.
  induction k as [|k IH]; intros w room Hown Hle.
  - exists w, [], room. cbn. rewrite Nat.add_0_r. repeat split.
    exact Hown.
  - cbn [repeat run].
    rewrite (step_requestNextRound socket code w room Hown).
    replace (5 <=? currentRound room) with false
      by (symmetry; apply Nat.leb_gt; lia).
    destruct (startRound_room_sets code room (rng w))
      as (type & sets & Heq & _).
    destruct (startRound_room code room (rng w)) as [[r o] s1].
    cbn [fst snd] in *. injection Heq as -> ->.
    set (w0 := mkWorld _ s1).
    assert (Hown0 : own code (lobbies w0)
                    = Some (mkRoom (players room) (S (currentRound room))
                                   type []))
      by (apply (own_replace code _ (lobbies w) room Hown)).
    destruct (IH w0 _ Hown0) as (w1 & out1 & room1 & Hrun & Hown1 & Hround
                                 & Hplayers & Hlen & Hall);
      [cbn; lia|].
    rewrite Hrun. eexists; eexists; exists room1.
    split; [reflexivity|]. split; [exact Hown1|].
    cbn [currentRound players] in *.
    split; [lia|]. split; [exact Hplayers|].
    cbn [length app forallb is_roundStart snd]. split; [lia | exact Hall].
Qed.

(** X10.  A game ends after round 5: from a room at round [r <= 5], [5 - r]
    calls of [requestNextRound] each start a round and bring the room to
    round 5 with the same players, and the call after them broadcasts
    [gameOver] with the players' scores and removes the room. *)
Theorem game_ends_after_round_five (socket code : string) (w : World)
    (room : Room) :
  wf (lobbies w) ->
  own code (lobbies w) = Some room ->
  currentRound room <= 5 ->
  exists (w1 : World) (out1 : list Emitted) (room1 : Room) (w2 : World),
    run (repeat (requestNextRound socket code) (5 - currentRound room)) w
    = Some (w1, out1)
    /\ length out1 = 5 - currentRound room
    /\ forallb is_roundStart out1 = true
    /\ own code (lobbies w1) = Some room1
    /\ currentRound room1 = 5
    /\ players room1 = players room
    /\ step (requestNextRound socket code) w1
       = Some (w2, [(ToRoom code, gameOver (scores room))])
    /\ own code (lobbies w2) = None.
Proof.
  intros Hwf Hown Hle.
  destruct (next_rounds socket code (5 - currentRound room) w room Hown)
    as (w1 & out1 & room1 & Hrun & Hown1 & Hround & Hplayers & Hlen & Hall);
    [lia|].
  exists w1, out1, room1. eexists.
  split; [exact Hrun|]. split; [exact Hlen|]. split; [exact Hall|].
  split; [exact Hown1|]. split; [lia|]. split; [exact Hplayers|].
  rewrite (step_requestNextRound socket code w1 room1 Hown1).
  replace (5 <=? currentRound room1) with true
    by (symmetry; apply Nat.leb_le; lia).
  unfold scores. rewrite Hplayers. split; [reflexivity|].
  cbn [lobbies]. apply own_delete.
  apply (run_wf _ w w1 out1 Hwf Hrun).
Qed.

Lemma game_ends_after_round_five_witness :
  wf (lobbies lobby_I)
  /\ exists (w1 : World) (out1 : list Emitted) (w2 : World),
       run (repeat (requestNextRound "s1" "I") 5) lobby_I = Some (w1, out1)
       /\ step (requestNextRound "s1" "I") w1
          = Some (w2, [(ToRoom "I", gameOver [("ann", 0)])])
       /\ own "I" (lobbies w2) = None.
Proof.
  assert (Hwf : wf (lobbies lobby_I)).
  { unfold wf. cbn. repeat constructor. intros []. }
  split; [exact Hwf|].
  destruct (game_ends_after_round_five "s1" "I" lobby_I _ Hwf eq_refl)
    as (w1 & out1 & room1 & w2 & Hrun & _ & _ & _ & _ & _ & Hstep & Hgone);
    [cbn; lia|].
  exists w1, out1, w2. repeat split; assumption.
Defined.

End Game.

(** ** Scores *)

Section Scores.

Lemma grows_refl (ps : list Player.t) : grows ps ps.
Proof.
  split; [|lia]. intros i p Hp. exists p. repeat split; try assumption; lia.
Qed.

Lemma grows_join (ps : list Player.t) (socket username : string) :
  grows ps (ps ++ [Player.mk socket username 0]).
Proof.
  split.
  - intros i p Hp. exists p. split.
    + rewrite nth_error_app1; [exact Hp|].
      apply nth_error_Some. rewrite Hp. discriminate.
    + repeat split; lia.
  - rewrite map_app, list_sum_app. cbn. lia.
Qed.

Lemma score_up_sum (winner : string) (ps : list Player.t) :
  list_sum (map Player.score (score_up winner ps))
  = list_sum (map Player.score ps)
    + match findIndex winner ps with Some _ => 1 | None => 0 end.
Proof.
  induction ps as [|p ps IH]; cbn [score_up findIndex].
  - reflexivity.
  - destruct (String.eqb (Player.id p) winner).
    + cbn. lia.
    + cbn [map]. unfold list_sum in *. cbn [fold_right]. rewrite IH.
      destruct (findIndex winner ps); cbn; lia.
Qed.

Lemma gain_le (winner : string) (ps : list Player.t) (i : nat) :
  gain winner ps i <= 1.
Proof.
  unfold gain. destruct (findIndex winner ps) as [j|]; [|lia].
  destruct (j =? i); lia.
Qed.

Lemma grows_score_up (winner : string) (ps : list Player.t) :
  grows ps (score_up winner ps).
Proof.
  split.
  - intros i p Hp. eexists. split; [apply score_up_nth, Hp|].
    cbn. pose proof (gain_le winner ps i). repeat split; lia.
  - pose proof (score_up_sum winner ps) as Hsum.
    destruct (findIndex winner ps); lia.
Qed.

Lemma score_up_ids (winner : string) (ps : list Player.t) :
  map Player.id (score_up winner ps) = map Player.id ps
  /\ map Player.name (score_up winner ps) = map Player.name ps.
Proof.
  induction ps as [|p ps [IHi IHn]]; cbn [score_up].
  - split; reflexivity.
  - destruct (String.eqb (Player.id p) winner); cbn.
    + split; reflexivity.
    + rewrite IHi, IHn. split; reflexivity.
Qed.

Lemma winnerOf_cases (a b : Ability.t) :
  winnerOf a b = "tie"
  \/ winnerOf a b = Ability.playerId a
  \/ winnerOf a b = Ability.playerId b.
Proof.
  unfold winnerOf.
  destruct (Ability.power a <? Ability.power b); [right; right; reflexivity|].
  destruct (Ability.power b <? Ability.power a);
    [right; left | left]; reflexivity.
Qed.

(** X7.  No handler but the disconnect handler removes, reorders or renames
    the players of a room, and none lowers a score: after any other event a
    room lists its former players in the same order under the same ids and
    names, each with its former score or one point more, and the room as a
    whole has gained at most one point. *)
Theorem scores_never_decrease
    (e : Event) (w w' : World) (out : list Emitted) (code : string)
    (room room' : Room) :
  wf (lobbies w) ->
  step e w = Some (w', out) ->
  own code (lobbies w) = Some room ->
  own code (lobbies w') = Some room' ->
  creates code e w = false ->
  (forall socket, e <> disconnect socket) ->
  (forall (i : nat) (p : Player.t),
      nth_error (players room) i = Some p ->
      exists p' : Player.t,
        nth_error (players room') i = Some p'
        /\ Player.id p' = Player.id p
        /\ Player.name p' = Player.name p
        /\ Player.score p <= Player.score p' <= Player.score p + 1)
  /\ total room <= total room' <= total room + 1.
Proof.
  intros Hwf Hstep Hown Hown' Hnc Hnd.
  change (grows (players room) (players room')).
  destruct e as [so u | so u c | so c | so c els d img reply | so c | so].
  - cbn [creates] in Hnc. apply String.eqb_neq in Hnc.
    rewrite (step_other _ _ _ _ code Hwf Hstep) in Hown'
      by (cbn [target]; congruence).
    rewrite Hown in Hown'. injection Hown' as <-. apply grows_refl.
  - destruct (String.eqb_spec c code) as [->|Hne].
    + rewrite (step_joinRoom_own so u code w room Hown) in Hstep.
      injection Hstep as <- _. cbn [lobbies] in Hown'.
      rewrite (own_replace code _ (lobbies w) room Hown) in Hown'.
      injection Hown' as <-. apply grows_join.
    + rewrite (step_other _ _ _ _ code Hwf Hstep) in Hown'
        by (cbn [target]; congruence).
      rewrite Hown in Hown'. injection Hown' as <-. apply grows_refl.
  - destruct (String.eqb_spec c code) as [->|Hne].
    + rewrite (step_startGame_own so code w room Hown) in Hstep.
      injection Hstep as <- _. cbn [lobbies] in Hown'.
      rewrite (own_replace code _ (lobbies w) room Hown) in Hown'.
      injection Hown' as <-.
      destruct (startRound_room_players code room (rng w)) as [-> _].
      apply grows_refl.
    + rewrite (step_other _ _ _ _ code Hwf Hstep) in Hown'
        by (cbn [target]; congruence).
      rewrite Hown in Hown'. injection Hown' as <-. apply grows_refl.
  - destruct (String.eqb_spec c code) as [->|Hne].
    + rewrite (step_playerChoice so code els d img reply w room Hown)
        in Hstep.
      cbv zeta in Hstep. injection Hstep as <- _. cbn [lobbies] in Hown'.
      rewrite (own_replace code _ (lobbies w) room Hown) in Hown'.
      injection Hown' as <-.
      destruct (playerChoice_room_players so code els d img reply room
                                          (rng w))
        as [Heq|[winner Heq]]; cbv zeta in Heq; rewrite Heq.
      * apply grows_refl.
      * apply grows_score_up.
    + rewrite (step_other _ _ _ _ code Hwf Hstep) in Hown'
        by (cbn [target]; congruence).
      rewrite Hown in Hown'. injection Hown' as <-. apply grows_refl.
  - destruct (String.eqb_spec c code) as [->|Hne].
    + rewrite (step_requestNextRound so code w room Hown) in Hstep.
      destruct (5 <=? currentRound room).
      * injection Hstep as <- _. cbn [lobbies] in Hown'.
        rewrite (own_delete code (lobbies w) Hwf) in Hown'. discriminate.
      * injection Hstep as <- _. cbn [lobbies] in Hown'.
        rewrite (own_replace code _ (lobbies w) room Hown) in Hown'.
        injection Hown' as <-.
        destruct (startRound_room_players code room (rng w)) as [-> _].
        apply grows_refl.
    + rewrite (step_other _ _ _ _ code Hwf Hstep) in Hown'
        by (cbn [target]; congruence).
      rewrite Hown in Hown'. injection Hown' as <-. apply grows_refl.
  - exfalso. exact (Hnd so eq_refl).
Qed.

Lemma scores_never_decrease_witness :
  wf (lobbies (mkWorld [("I", duel)] []))
  /\ exists (w' : World) (out : list Emitted) (room' : Room),
       step (playerChoice "s1" "I" ["Earth"] "quake" ""
                          (answered (Some "A")))
            (mkWorld [("I", duel)] [])
       = Some (w', out)
       /\ own "I" (lobbies w') = Some room'
       /\ total duel <= total room' <= total duel + 1.
Proof.
  assert (Hwf : wf (lobbies (mkWorld [("I", duel)] []))).
  { unfold wf. cbn. repeat constructor. intros []. }
  split; [exact Hwf|].
  match goal with
  | |- exists w' out room', ?r = _ /\ _ =>
      destruct r as [[w' out]|] eqn:Hstep; [|discriminate Hstep]
  end.
  destruct (own "I" (lobbies w')) as [room'|] eqn:Hown'.
  - exists w', out, room'. split; [reflexivity|]. split; [exact Hown'|].
    refine (proj2 (scores_never_decrease _ _ _ _ "I" duel room' Hwf Hstep
                     eq_refl Hown' eq_refl _)).
    intros socket. discriminate.
  - exfalso. revert Hown'. injection Hstep as <- _. discriminate.
Defined.

(** X8.  Scores reconcile with the results: a [playerChoice] on a
    registered room either emits nothing and leaves the players as they
    were, or emits one [battleResult] whose winner is ["tie"] or the
    [playerId] of one of the two entries shown, whose scores are those of
    the room after the battle, and after which the room holds one point
    more if the winner is not ["tie"] and is the id of one of its players,
    and the same points otherwise.  Ids and names are untouched. *)
Theorem battle_score_accounting
    (socket code : string) (elements : list string)
    (description imageUrl : string) (reply : Oracle) (w : World)
    (room : Room) :
  own code (lobbies w) = Some room ->
  exists (w' : World) (out : list Emitted) (room' : Room),
    step (playerChoice socket code elements description imageUrl reply) w
    = Some (w', out)
    /\ own code (lobbies w') = Some room'
    /\ map Player.id (players room') = map Player.id (players room)
    /\ map Player.name (players room') = map Player.name (players room)
    /\ ((out = [] /\ players room' = players room)
        \/ exists (winner : string) (a b : Ability.t) (nar : string),
             out = [(ToRoom code,
                     battleResult (currentRound room) winner a b
                                  (scores room') nar)]
             /\ (winner = "tie" \/ winner = Ability.playerId a
                 \/ winner = Ability.playerId b)
             /\ total room'
                = total room + (if scoring winner room then 1 else 0)).
Proof.
  intros Hown.
  rewrite (step_playerChoice socket code elements description imageUrl reply
                             w room Hown).
  cbv zeta. eexists; eexists; eexists. split; [reflexivity|].
  cbn [lobbies]. split; [apply (own_replace code _ (lobbies w) room Hown)|].
  destruct (playerChoice_room_outcome socket code elements description
                                      imageUrl reply room (rng w))
    as [[Hout Hps]|(a & b & rest & Hpend & Hout & Hps)];
    cbv zeta in *; rewrite Hps.
  - split; [reflexivity|]. split; [reflexivity|]. left.
    split; [exact Hout | reflexivity].
  - assert (Hids :
      map Player.id (if String.eqb (winnerOf a b) "tie" then players room
                     else score_up (winnerOf a b) (players room))
      = map Player.id (players room)
      /\ map Player.name (if String.eqb (winnerOf a b) "tie"
                          then players room
                          else score_up (winnerOf a b) (players room))
         = map Player.name (players room)).
    { destruct (String.eqb (winnerOf a b) "tie");
        [split; reflexivity | apply score_up_ids]. }
    split; [apply Hids|]. split; [apply Hids|]. right.
    exists (winnerOf a b), a, b, (narrative a b).
    split; [exact Hout|]. split; [apply winnerOf_cases|].
    unfold total, scoring. rewrite Hps.
    destruct (String.eqb (winnerOf a b) "tie"); cbn [negb andb].
    + lia.
    + rewrite score_up_sum.
      destruct (findIndex (winnerOf a b) (players room)); reflexivity.
Qed.

Lemma battle_score_accounting_witness :
  exists (w' : World) (out : list Emitted) (room' : Room),
    step (playerChoice "s1" "I" ["Earth"] "quake" "" (answered (Some "A")))
         (mkWorld [("I", duel)] [])
    = Some (w', out)
    /\ own "I" (lobbies w') = Some room'
    /\ map Player.id (players room') = ["s1"; "s2"].
Proof.
  destruct (battle_score_accounting
              "s1" "I" ["Earth"] "quake" "" (answered (Some "A"))
              (mkWorld [("I", duel)] []) duel eq_refl)
    as (w' & out & room' & Hstep & Hown & Hids & _).
  exists w', out, room'. repeat split; assumption.
Defined.

End Scores.

(** ** Strangers and neighbours *)

Section Strangers.

Lemma scan_stranger (socket : string) (l : Lobbies) :
  (forall k r, In (k, r) l -> ~ In socket (map Player.id (players r))) ->
  scan socket l = None.
Proof.
  induction l as [|[k r] l IH]; cbn [scan]; intros H.
  - reflexivity.
  - rewrite (findIndex_not_in socket (players r) (H k r (or_introl eq_refl))).
    apply IH. intros k' r' Hin. apply (H k' r'). right. exact Hin.
Qed.

(** X9.  The disconnect of a socket that is a player of no room changes
    nothing and emits nothing. *)
Theorem disconnect_stranger (socket : string) (w : World) :
  (forall k r, In (k, r) (lobbies w) ->
               ~ In socket (map Player.id (players r))) ->
  step (disconnect socket) w = Some (w, []).
Proof.
  intros H. unfold step, handle, on_disconnect.
  rewrite (scan_stranger socket (lobbies w) H).
  destruct w as [l s]. reflexivity.
Qed.

Lemma disconnect_stranger_witness :
  step (disconnect "s7") pair_lobby = Some (pair_lobby, []).
Proof.
  apply disconnect_stranger.
  intros k r [Heq|[]]. injection Heq as <- <-. cbn.
  intros [H|[H|[]]]; discriminate H.
Defined.

Lemma senderName_stranger (socket : string) (room : Room) :
  ~ In socket (map Player.id (players room)) ->
  senderName socket room = "Unknown".
Proof.
  intros H. unfold senderName.
  destruct (find _ (players room)) as [p|] eqn:Hfind; [|reflexivity].
  exfalso. apply find_some in Hfind as [Hin Heq].
  apply String.eqb_eq in Heq. apply H, in_map_iff.
  exists p. split; assumption.
Qed.

(** X11.  A [playerChoice] is accepted from a socket that is not a player
    of the room: its entry is pushed under the name ["Unknown"] and takes
    part in the battle like any other, but when it wins no score changes. *)
Theorem stranger_submission
    (socket code : string) (elements : list string)
    (description imageUrl : string) (reply : Oracle) (w : World)
    (room : Room) :
  own code (lobbies w) = Some room ->
  ~ In socket (map Player.id (players room)) ->
  exists (w' : World) (out : list Emitted) (room' : Room)
         (entry : Ability.t),
    step (playerChoice socket code elements description imageUrl reply) w
    = Some (w', out)
    /\ own code (lobbies w') = Some room'
    /\ In entry (pending room')
    /\ Ability.playerId entry = socket
    /\ Ability.name entry = "Unknown"
    /\ Ability.description entry = description
    /\ forall round winner a b sc nar,
         In (ToRoom code, battleResult round winner a b sc nar) out ->
         winner = socket ->
         players room' = players room.
Proof.
  intros Hown Hstranger.
  rewrite (step_playerChoice socket code elements description imageUrl reply
                             w room Hown).
  cbv zeta.
  set (r := playerChoice_room socket code elements description imageUrl
                              reply room (rng w)).
  assert (Hentry : exists entry,
             In entry (pending (fst (fst r)))
             /\ Ability.playerId entry = socket
             /\ Ability.name entry = "Unknown"
             /\ Ability.description entry = description).
  { destruct (playerChoice_room_spec socket code elements description
                                     imageUrl reply room (rng w))
      as (sent & tail & s1 & Heq & _).
    fold r in Heq. rewrite Heq.
    set (room1 := set_pending _ room).
    pose proof (battle_frame
                  (fun a => (Ability.playerId a, Ability.name a,
                             Ability.description a))
                  code reply room1 s1 (fun n a => eq_refl)) as Hframe.
    assert (Hin : In (socket, "Unknown", description)
                     (map (fun a => (Ability.playerId a, Ability.name a,
                                     Ability.description a))
                          (pending room1))).
    { subst room1. cbn [pending set_pending]. rewrite map_app.
      apply in_or_app. right. left. cbn.
      rewrite (senderName_stranger socket room Hstranger). reflexivity. }
    rewrite <- Hframe in Hin. apply in_map_iff in Hin as (entry & Hf & Hin).
    injection Hf as H1 H2 H3. exists entry. repeat split; assumption. }
  destruct Hentry as (entry & Hin & Hid & Hname & Hdesc).
  eexists; eexists; exists (fst (fst r)), entry.
  cbn [lobbies]. split; [reflexivity|].
  split; [apply (own_replace code _ (lobbies w) room Hown)|].
  split; [exact Hin|]. split; [exact Hid|]. split; [exact Hname|].
  split; [exact Hdesc|].
  intros round winner a b sc nar Hout ->.
  destruct (playerChoice_room_outcome socket code elements description
                                      imageUrl reply room (rng w))
    as [[_ Hps]|(a' & b' & rest & _ & Heq & Hps)]; cbv zeta in *;
    fold r in Hps |- *; [exact Hps|].
  fold r in Heq. rewrite Heq in Hout. destruct Hout as [Hout|[]].
  injection Hout as _ Hw _ _ _ _. rewrite Hps, Hw.
  destruct (String.eqb socket "tie"); [reflexivity|].
  apply score_up_absent, findIndex_not_in, Hstranger.
Qed.

Lemma stranger_submission_witness :
  exists (w' : World) (out : list Emitted) (room' : Room)
         (entry : Ability.t),
    step (playerChoice "s7" "I" ["Air"] "gust" "" no_key) lobby_I
    = Some (w', out)
    /\ own "I" (lobbies w') = Some room'
    /\ In entry (pending room')
    /\ Ability.name entry = "Unknown".
Proof.
  destruct (stranger_submission "s7" "I" ["Air"] "gust" "" no_key lobby_I
              _ eq_refl)
    as (w' & out & room' & entry & Hstep & Hown & Hin & _ & Hname & _).
  - cbn. intros [H|[]]. discriminate H.
  - exists w', out, room', entry. repeat split; assumption.
Defined.

(** X12.  Rooms do not interfere: an event changes no room but the one it is
    about, and whatever it emits goes to the sender or to that room. *)
Theorem rooms_isolated
    (e : Event) (w w' : World) (out : list Emitted) :
  wf (lobbies w) ->
  step e w = Some (w', out) ->
  (forall code : string,
      target e w <> Some code ->
      own code (lobbies w') = own code (lobbies w))
  /\ forall m : Emitted,
       In m out ->
       fst m = ToSocket (sender e)
       \/ exists code, target e w = Some code /\ fst m = ToRoom code.
Proof.
  intros Hwf Hstep. split.
  - intros code Hne. apply (step_other e w w' out code Hwf Hstep Hne).
  - intros m Hm.
    destruct e as [so u | so u c | so c | so c els d img reply | so c | so];
      cbn [sender target].
    + rewrite step_createRoom in Hstep. injection Hstep as _ <-.
      destruct Hm as [<-|[]]. left. reflexivity.
    + apply step_inv in Hstep. cbn [handle] in Hstep.
      unfold on_joinRoom in Hstep.
      destruct (lobbies_get c (lobbies w)); injection Hstep as _ <- _;
        destruct Hm as [<-|[]];
        try (left; reflexivity).
      right. exists c. split; reflexivity.
    + right. exists c. split; [reflexivity|].
      apply step_inv in Hstep. cbn [handle] in Hstep.
      unfold startRound in Hstep.
      destruct (lobbies_get c (lobbies w)) as [room| |]; try discriminate.
      * unfold bind, ret in Hstep.
        destruct (startRound_room_spec c room (rng w))
          as (t & sets & Heq & _).
        destruct (startRound_room c room (rng w)) as [r s1].
        cbn [fst] in Heq. injection Hstep as _ <- _. rewrite Heq in Hm.
        destruct Hm as [<-|[]]. reflexivity.
      * injection Hstep as _ <- _. destruct Hm.
    + destruct (own c (lobbies w)) as [room|] eqn:Hown.
      * rewrite (step_playerChoice so c els d img reply w room Hown)
          in Hstep.
        cbv zeta in Hstep. injection Hstep as _ <-.
        right. exists c. split; [reflexivity|].
        destruct (playerChoice_room_outcome so c els d img reply room
                                            (rng w))
          as [[Hout _]|(a & b & rest & _ & Hout & _)]; cbv zeta in Hout;
          rewrite Hout in Hm.
        -- destruct Hm.
        -- destruct Hm as [<-|[]]. reflexivity.
      * apply step_inv in Hstep. cbn [handle] in Hstep.
        unfold on_playerChoice, lobbies_get in Hstep. rewrite Hown in Hstep.
        destruct (existsb _ _); injection Hstep as _ <- _.
        -- destruct Hm as [<-|[]]. left. reflexivity.
        -- destruct Hm.
    + right. exists c. split; [reflexivity|].
      apply step_inv in Hstep. cbn [handle] in Hstep.
      unfold on_requestNextRound in Hstep.
      destruct (lobbies_get c (lobbies w)) as [room| |] eqn:Eget;
        try discriminate.
      * destruct (5 <=? currentRound room).
        -- injection Hstep as _ <- _. destruct Hm as [<-|[]]. reflexivity.
        -- unfold startRound in Hstep. rewrite Eget in Hstep.
           unfold bind, ret in Hstep.
           destruct (startRound_room_spec c room (rng w))
             as (t & sets & Heq & _).
           destruct (startRound_room c room (rng w)) as [r s1].
           cbn [fst] in Heq. injection Hstep as _ <- _. rewrite Heq in Hm.
           destruct Hm as [<-|[]]. reflexivity.
      * injection Hstep as _ <- _. destruct Hm.
    + apply step_inv in Hstep. cbn [handle] in Hstep.
      apply disconnect_out in Hstep.
      destruct (scan so (lobbies w)) as [[[c room] idx]|]; subst out.
      * destruct Hm as [<-|[]]. right. exists c. split; reflexivity.
      * destruct Hm.
Qed.

Lemma rooms_isolated_witness :
  wf (lobbies pair_lobby)
  /\ exists (w' : World) (out : list Emitted),
       step (startGame "s2" "I") pair_lobby = Some (w', out)
       /\ own "J" (lobbies w') = own "J" (lobbies pair_lobby).
Proof.
  assert (Hwf : wf (lobbies pair_lobby)).
  { unfold wf. cbn. repeat constructor. intros []. }
  split; [exact Hwf|].
  destruct (step (startGame "s2" "I") pair_lobby) as [[w' out]|] eqn:Hstep;
    [|discriminate Hstep].
  exists w', out. split; [reflexivity|].
  apply (proj1 (rooms_isolated _ _ _ _ Hwf Hstep)).
  cbn. discriminate.
Defined.

End Strangers.

(** ** The client *)

Section ClientFacts.

Lemma cards_from_row (sets : list (list string)) :
  forall (k index : nat) (el : string),
    In (index, el) (Client.cards_from k sets) ->
    k <= index
    /\ exists set, nth_error sets (index - k) = Some set /\ In el set.
Proof.
  induction sets as [|set rest IH]; cbn [Client.cards_from];
    intros k index el Hin.
  - destruct Hin.
  - apply in_app_or in Hin as [Hin|Hin].
    + apply in_map_iff in Hin as (x & Heq & Hx). injection Heq as <- <-.
      split; [lia|]. exists set. rewrite Nat.sub_diag. split; [reflexivity|].
      exact Hx.
    + destruct (IH (S k) index el Hin) as (Hle & set' & Hnth & Hel).
      split; [lia|]. exists set'. split; [|exact Hel].
      replace (index - k) with (S (index - S k)) by lia. exact Hnth.
Qed.

Lemma write_picked (sets : list (list string)) :
  forall (sel : list (option string)) (index : nat) (el : string)
         (set : list string),
    Forall2 Client.picked sel sets ->
    nth_error sets index = Some set -> In el set ->
    Forall2 Client.picked (Client.write index (Some el) sel) sets.
Proof.
  induction sets as [|set0 rest IH]; intros sel index el set Hall Hnth Hel.
  - destruct index; discriminate.
  - inversion Hall as [|x y sel' sets' Hx Hrest]; subst.
    destruct index as [|index]; cbn [Client.write nth_error] in *.
    + injection Hnth as ->. constructor; assumption.
    + constructor; [exact Hx|]. apply (IH sel' index el set); assumption.
Qed.

Lemma renderSets_picked (sets : list (list string)) :
  Forall2 Client.picked (Client.renderSets sets) sets.
Proof.
  unfold Client.renderSets.
  induction sets as [|set rest IH]; cbn; constructor; [exact I | exact IH].
Qed.

Lemma click_picked (n : nat) (st : Client.State) :
  Forall2 Client.picked (Client.selected st) (Client.currentSets st) ->
  Client.currentSets (Client.click n st) = Client.currentSets st
  /\ Forall2 Client.picked (Client.selected (Client.click n st))
                           (Client.currentSets st).
Proof.
  intros Hall. unfold Client.click.
  destruct (nth_error (Client.cards (Client.currentSets st)) n)
    as [[index el]|] eqn:Hcard.
  - cbn [Client.currentSets Client.selected]. split; [reflexivity|].
    apply nth_error_In in Hcard.
    destruct (cards_from_row _ _ _ _ Hcard) as (_ & set & Hnth & Hel).
    rewrite Nat.sub_0_r in Hnth.
    apply (write_picked _ _ index el set); assumption.
  - split; [reflexivity | exact Hall].
Qed.

Lemma clicks_picked (ns : list nat) :
  forall st : Client.State,
    Forall2 Client.picked (Client.selected st) (Client.currentSets st) ->
    Client.currentSets (Client.clicks ns st) = Client.currentSets st
    /\ Forall2 Client.picked (Client.selected (Client.clicks ns st))
                             (Client.currentSets st).
Proof.
  unfold Client.clicks.
  induction ns as [|n ns IH]; intros st Hall; cbn [fold_left].
  - split; [reflexivity | exact Hall].
  - destruct (click_picked n st Hall) as [Hsets Hall1].
    rewrite <- Hsets in Hall1.
    destruct (IH (Client.click n st) Hall1) as [Hsets2 Hall2].
    rewrite Hsets in Hsets2, Hall2. split; assumption.
Qed.

Lemma submit_elements (sets : list (list string)) :
  forall sel : list (option string),
    Forall2 Client.picked sel sets ->
    Client.includes_null sel = false ->
    Forall2 (fun el set => In el set)
            (map (fun x => match x with Some el => el | None => "" end) sel)
            sets.
Proof.
  intros sel Hall. induction Hall as [|x set sel' sets' Hx _ IH];
    cbn [Client.includes_null existsb map]; intros Hnull.
  - constructor.
  - apply orb_false_iff in Hnull as [Hx0 Hrest].
    destruct x as [el|]; [|discriminate].
    constructor; [exact Hx | apply IH, Hrest].
Qed.

(** What the client sends for the sets it was shown. *)
Lemma client_choice (sets : list (list string)) (ns : list nat)
    (st0 : Client.State) (code abilityDesc url : string)
    (c : Client.Choice) :
  Client.submit code abilityDesc url
    (Client.clicks ns (Client.on_roundStart sets st0)) = Some c ->
  Client.roomCode c = code
  /\ Client.description c = trim abilityDesc
  /\ Client.imageUrl c = trim url
  /\ Forall2 (fun el set => In el set) (Client.elements c) sets.
Proof.
  intros Hsub. unfold Client.submit in Hsub.
  destruct (clicks_picked ns (Client.on_roundStart sets st0)
              (renderSets_picked sets)) as [_ Hall].
  cbn [Client.currentSets Client.on_roundStart] in Hall.
  destruct (Client.includes_null _) eqn:Hnull; [discriminate|].
  injection Hsub as <-. cbn.
  repeat split. apply submit_elements; assumption.
Qed.

(** X13.  The client sends one element for each set it was shown: whatever
    the cards clicked since [roundStart], a [playerChoice] it emits carries
    as many elements as there are sets, the i-th taken from the i-th set,
    with the description and the image address trimmed.  Before any click
    it emits nothing if a set is shown. *)
Theorem client_sends_one_per_set
    (sets : list (list string)) (ns : list nat) (st0 : Client.State)
    (code abilityDesc url : string) (c : Client.Choice)
    (set : list string) (rest : list (list string)) :
  Client.submit code abilityDesc url
    (Client.clicks ns (Client.on_roundStart sets st0)) = Some c ->
  Client.roomCode c = code
  /\ Client.description c = trim abilityDesc
  /\ Client.imageUrl c = trim url
  /\ length (Client.elements c) = length sets
  /\ Forall2 (fun el set => In el set) (Client.elements c) sets
  /\ Client.submit code abilityDesc url
       (Client.on_roundStart (set :: rest) st0) = None.
Proof.
  intros Hsub.
  destruct (client_choice sets ns st0 code abilityDesc url c Hsub)
    as (Hcode & Hdesc & Hurl & Hall).
  repeat split; try assumption.
  apply (Forall2_length Hall).
Qed.

Lemma client_sends_one_per_set_witness :
  exists c : Client.Choice,
    Client.submit "I" " steam " ""
      (Client.clicks [0; 2]
         (Client.on_roundStart [["Fire"; "Water"; "Earth"]]
                               (Client.mkState [] [])))
    = Some c
    /\ Client.elements c = ["Earth"]
    /\ length (Client.elements c) = 1.
Proof.
  eexists. split; [reflexivity|]. split; [reflexivity|].
  exact (proj1 (proj2 (proj2 (proj2
           (client_sends_one_per_set
              [["Fire"; "Water"; "Earth"]] [0; 2] (Client.mkState [] [])
              "I" " steam " "" _ ["Fire"] [] eq_refl))))).
Defined.

(** X14.  From the server to the client and back: when the client answers
    the [roundStart] of a round with a [playerChoice], the entry the server
    stores for it has 2 elements in a [standard] round, 2 in a [missing]
    round (the one pick and the element the server adds) and 3 in an
    [evolution] round; an AI entry pushed after it has 2. *)
Theorem client_choice_stored
    (socket code abilityDesc url : string) (reply : Oracle)
    (before started : Room) (s0 s : list N)
    (round : nat) (type : RoundType) (sets : list (list string))
    (sc : list (string * nat))
    (ns : list nat) (st0 : Client.State) (c : Client.Choice) :
  fst (startRound_room code before s0)
  = (started, [(ToRoom code, roundStart round type sets sc)]) ->
  Client.submit code abilityDesc url
    (Client.clicks ns (Client.on_roundStart sets st0)) = Some c ->
  exists (sent : list string) (tail : list (list string)),
    map Ability.elements
        (pending (fst (fst (playerChoice_room
                              socket (Client.roomCode c) (Client.elements c)
                              (Client.description c) (Client.imageUrl c)
                              reply started s))))
    = sent :: tail
    /\ length sent = match type with
                     | standard => 2
                     | missing => 2
                     | evolution => 3
                     end
    /\ Forall (fun els => length els = 2) tail.
Proof.
  intros Hstart Hsub.
  destruct (startRound_room_sets code before s0)
    as (type' & sets' & Heq & _ & Hlen).
  rewrite Heq in Hstart. injection Hstart as <- _ <- <- _.
  destruct (client_choice sets' ns st0 code abilityDesc url c Hsub)
    as (_ & _ & _ & Hall).
  apply Forall2_length in Hall.
  set (started := mkRoom (players before) (S (currentRound before)) type' []).
  destruct (playerChoice_room_elements
              socket (Client.roomCode c) (Client.elements c)
              (Client.description c) (Client.imageUrl c) reply started s)
    as (sent & tail & Hmap & Hsent & Htail).
  exists sent, tail. split; [exact Hmap|]. split.
  - cbn [roundType started] in Hsent.
    destruct type'.
    + subst sent. lia.
    + destruct Hsent as (e & _ & ->). rewrite length_app. cbn. lia.
    + subst sent. lia.
  - destruct (lone started).
    + destruct Htail as (e1 & e2 & ->). repeat constructor.
    + subst tail. constructor.
Qed.

Lemma client_choice_stored_witness :
  exists (c : Client.Choice) (sent : list string)
         (tail : list (list string)),
    Client.submit "I" "steam" ""
      (Client.clicks [1]
         (Client.on_roundStart [["Fire"; "Water"; "Earth"]]
                               (Client.mkState [] [])))
    = Some c
    /\ map Ability.elements
           (pending (fst (fst (playerChoice_room
                                 "s1" "I" (Client.elements c) "steam" ""
                                 no_key missing_lobby []))))
       = sent :: tail
    /\ length sent = 2.
Proof.
  eexists.
  destruct (client_choice_stored
              "s1" "I" "steam" "" no_key
              (mkRoom [Player.mk "s1" "ann" 0] 0 standard []) missing_lobby
              [] [] 1 missing [["Fire"; "Water"; "Earth"]] [("ann", 0)]
              [1] (Client.mkState [] []) _ eq_refl eq_refl)
    as (sent & tail & Hmap & Hlen & _).
  exists sent, tail. split; [reflexivity|]. split; [exact Hmap | exact Hlen].
Defined.

(** X16.  The text the client shows for a [battleResult] of the server: the
    two names with their powers, then a tie when the powers are equal, and
    otherwise the name of the entry with the higher power -- except that,
    when both entries come from the same socket and the second one wins,
    the name shown is that of the first. *)
Theorem client_names_winner (a b : Ability.t) :
  Ability.playerId a <> "tie" ->
  Ability.playerId b <> "tie" ->
  Client.resultText (winnerOf a b) a b
  = String.append (Client.versus a b)
      (if Ability.power a =? Ability.power b then "It's a tie!"
       else String.append
              (if (Ability.power b <? Ability.power a)
                  || String.eqb (Ability.playerId a) (Ability.playerId b)
               then Ability.name a else Ability.name b)
              " wins!").
Proof.
  intros Ha Hb. unfold Client.resultText.
  destruct (Nat.lt_trichotomy (Ability.power a) (Ability.power b))
    as [Hlt|[Heq|Hgt]].
  - rewrite (winnerOf_second a b Hlt).
    apply String.eqb_neq in Hb. rewrite Hb.
    replace (Ability.power a =? Ability.power b) with false
      by (symmetry; apply Nat.eqb_neq; lia).
    replace (Ability.power b <? Ability.power a) with false
      by (symmetry; apply Nat.ltb_ge; lia).
    cbn [find orb]. rewrite String.eqb_refl.
    destruct (String.eqb (Ability.playerId a) (Ability.playerId b));
      reflexivity.
  - rewrite (winnerOf_tie a b Heq). rewrite Heq, Nat.eqb_refl. reflexivity.
  - rewrite (winnerOf_first a b Hgt).
    apply String.eqb_neq in Ha. rewrite Ha.
    replace (Ability.power a =? Ability.power b) with false
      by (symmetry; apply Nat.eqb_neq; lia).
    replace (Ability.power b <? Ability.power a) with true
      by (symmetry; apply Nat.ltb_lt; lia).
    cbn [find orb]. rewrite String.eqb_refl. reflexivity.
Qed.

Lemma client_names_winner_witness :
  Client.resultText
    (winnerOf (Ability.mk "s1" "ann" ["Fire"] "steam" "" 40)
              (Ability.mk "AI" "AI Bot" ["Ice"; "Air"] "AI uses Ice and Air"
                          "" 41))
    (Ability.mk "s1" "ann" ["Fire"] "steam" "" 40)
    (Ability.mk "AI" "AI Bot" ["Ice"; "Air"] "AI uses Ice and Air" "" 41)
  = ("ann (40) vs AI Bot (41)" ++ Client.newline ++ "AI Bot wins!")%string.
Proof.
  rewrite client_names_winner by discriminate. reflexivity.
Defined.

End ClientFacts.

(** ** The two versions of [startRound] *)

Section Variant.

(** [draw] reads as many numbers as it returns elements and leaves the rest
    of the stream. *)
Lemma draw_stream (count : nat) :
  forall (copy : list string) (ds s : list N),
    length ds = Nat.min count (length copy) ->
    draw count copy (ds ++ s) = (fst (draw count copy ds), s).
Proof.
  induction count as [|count IH]; intros copy ds s Hlen.
  - destruct ds; [reflexivity | discriminate].
  - destruct copy as [|c copy'] eqn:Ecopy.
    + destruct ds; [reflexivity | discriminate].
    + rewrite <- Ecopy in *.
      assert (Hpos : 0 < length copy) by (subst copy; cbn; lia).
      assert (Hstep : forall st,
                draw (S count) copy st =
                (idx <- random_below (length copy) ;;
                 rest <- draw count (splice1 idx copy) ;;
                 ret (nth idx copy "" :: rest)) st)
        by (intros st; subst copy; reflexivity).
      rewrite !Hstep. clear Hstep.
      destruct ds as [|d ds]; [subst copy; discriminate|].
      cbn [app]. unfold bind, ret.
      rewrite (random_below_tail (length copy) d (ds ++ s)).
      rewrite (random_below_tail (length copy) d ds).
      pose proof (random_below_lt (length copy) [d] Hpos) as Hidx.
      set (idx := fst (random_below (length copy) [d])) in *.
      rewrite (IH (splice1 idx copy) ds s).
      * destruct (draw count (splice1 idx copy) ds) as [rest s2].
        reflexivity.
      * rewrite splice1_length by exact Hidx.
        cbn [length] in Hlen.
        destruct (length copy) as [|n]; [lia|]. cbn in Hlen |- *. lia.
Qed.

Lemma randomElements_stream (a b c : N) (s : list N) :
  randomElements 3 (a :: b :: c :: s)
  = (fst (randomElements 3 [a; b; c]), s).
Proof.
  unfold randomElements.
  apply (draw_stream 3 ELEMENTS [a; b; c] s). reflexivity.
Qed.

Lemma bind_randomElements {B} (k : list string -> Rand B) (a b c : N)
    (s : list N) :
  (x <- randomElements 3 ;; k x) (a :: b :: c :: s)
  = k (fst (randomElements 3 [a; b; c])) s.
Proof.
  unfold bind at 1. rewrite randomElements_stream. reflexivity.
Qed.

Lemma bind_Math_random {B} (k : N -> Rand B) (r : N) (s : list N) :
  (x <- Math_random ;; k x) (r :: s) = k (r mod RES)%N s.
Proof. reflexivity. Qed.

(** X15.  The version of [startRound] in [src/unnamed/part_000] draws the
    two default sets before the number that decides the round type, and
    [src/server.js] after it; on streams of draws that differ by that order
    alone, the two versions start the same round, emit the same [roundStart]
    and leave the same draws. *)
Theorem startRound_versions_agree
    (code : string) (room : Room) (r a1 a2 a3 b1 b2 b3 : N) (s : list N) :
  OpenRouter.startRound_room code room
    (a1 :: a2 :: a3 :: b1 :: b2 :: b3 :: r :: s)
  = startRound_room code room (r :: a1 :: a2 :: a3 :: b1 :: b2 :: b3 :: s).
Proof.
  unfold OpenRouter.startRound_room, startRound_room.
  rewrite bind_randomElements, bind_randomElements, bind_Math_random.
  rewrite bind_Math_random, bind_randomElements, bind_randomElements.
  reflexivity.
Qed.

End Variant.
